(** * A shallow embedding of the BGL log simulator (bgl_log_simulator.py)

    The simulator is a Python class [BGLLogSimulator] whose methods mutate
    three pieces of state (the node status dictionary, the simulation clock
    and the registry of active anomalies) and draw from Python's global
    random generator.  The embedding below is a state-and-exception monad
    over a record holding exactly that state; the random generator is an
    infinite tape of raw draws read through a cursor kept in the state.

    Modelling conventions, used throughout:
    - Python [int] is [Z]; [//] is [Z.div] and [%] is [Z.modulo] (both floor).
    - Python [float] is idealised as an exact rational [Q]; IEEE rounding is
      not modelled.  [random.random()] is [k / 2^53] for a raw draw [k], as in
      CPython.
    - [datetime] values are microseconds since the epoch, as an unbounded [Z];
      a timestamp string [YYYY-MM-DD-HH.MM.SS.mmm] is represented by the
      instant it denotes, in whole milliseconds.
    - A formatted log line is represented by the five fields it is built
      from ([_format_log_entry] joins them into a single string).
    - A message template is the sequence of its literal pieces and of its
      [{name}] placeholders; the test ["{name}" in message] and
      [message.replace("{name}", v)] act on the placeholders.
    - A raised exception keeps the state reached so far, as the object
      attributes of a Python instance do. *)

From Stdlib Require Import ZArith QArith Lia Ascii String.
From stdpp Require Import base gmap list strings pretty.

Open Scope Z_scope.

(** ** Enumerations *)

Inductive Status :=
  | OPERATIONAL | NETWORK_DEGRADED | POWERED_OFF
  | FILESYSTEM_ERROR | MEMORY_ERROR | OVERHEATING.

Inductive Severity := INFO | WARNING | ERROR | FATAL.

Inductive Component :=
  | KERNEL | MEMORY | NETWORK | IO | PROCESSOR
  | FILESYSTEM | SCHEDULER | POWER | TEMPERATURE | APPLICATION.

Inductive AnomalyKind :=
  | network_partition | rack_power_failure | filesystem_corruption
  | memory_errors | overheating.

#[global] Instance Status_eq_dec : EqDecision Status.
Proof. solve_decision. Defined.
#[global] Instance Severity_eq_dec : EqDecision Severity.
Proof. solve_decision. Defined.
#[global] Instance Component_eq_dec : EqDecision Component.
Proof. solve_decision. Defined.
#[global] Instance AnomalyKind_eq_dec : EqDecision AnomalyKind.
Proof. solve_decision. Defined.

(** ** Message templates *)

Inductive Token := Lit (text : string) | Hole (name : string).

#[global] Instance Token_eq_dec : EqDecision Token.
Proof. solve_decision. Defined.

Definition Template := list Token.

Definition flush (lit : string) : Template :=
  if decide (lit = "") then [] else [Lit lit].

(** [scan s lit hole] reads the template text [s]; [lit] is the literal text
    read so far and [hole] the name of the placeholder being read, if the scan
    is inside braces. *)
Fixpoint scan (s lit : string) (hole : option string) : Template :=
  match s, hole with
  | EmptyString, None => flush lit
  | EmptyString, Some h => flush (lit +:+ "{" +:+ h)
  | String c rest, None =>
      if decide (c = "{"%char) then scan rest lit (Some "")
      else scan rest (lit +:+ String c "") None
  | String c rest, Some h =>
      if decide (c = "}"%char) then flush lit ++ Hole h :: scan rest "" None
      else scan rest lit (Some (h +:+ String c ""))
  end.

Definition tpl (s : string) : Template := scan s "" None.

(** A value spliced into an f-string: literal text, never a placeholder. *)
Definition lit (v : string) : Template := [Lit v].

(** ["{name}" in message] *)
Definition has_hole (name : string) (message : Template) : bool :=
  bool_decide (Hole name ∈ message).

(** [message.replace("{name}", v)] *)
Definition replace_hole (name v : string) (message : Template) : Template :=
  (λ tok, if decide (tok = Hole name) then Lit v else tok) <$> message.

Definition render_token (tok : Token) : string :=
  match tok with
  | Lit s => s
  | Hole h => "{" +:+ h +:+ "}"
  end.

Definition render (message : Template) : string :=
  foldr (λ tok acc, render_token tok +:+ acc) "" message.

(** ** Number formatting *)

(** [str(n)] *)
Definition str (n : Z) : string := pretty n.

Fixpoint zeros (n : nat) : string :=
  match n with O => "" | S n' => String "0" (zeros n') end.

Definition zfill (width : nat) (digits : string) : string :=
  zeros (width - String.length digits) +:+ digits.

(** [f"{n:0{width}d}"]: the sign counts in the width. *)
Definition fmt_d (width : nat) (n : Z) : string :=
  if decide (n < 0) then "-" +:+ zfill (width - 1) (pretty (- n))
  else zfill width (pretty n).

Definition hex_digit (d : Z) : ascii :=
  default "0"%char (list_ascii_of_string "0123456789abcdef" !! Z.to_nat d).

Fixpoint hex_digits (fuel : nat) (n : Z) (acc : string) : string :=
  match fuel with
  | O => acc
  | S fuel' =>
      let acc' := String (hex_digit (n `mod` 16)) acc in
      if decide (n `div` 16 = 0) then acc' else hex_digits fuel' (n `div` 16) acc'
  end.

(** [f"{n:0{width}x}"] for [n >= 0] *)
Definition fmt_x (width : nat) (n : Z) : string :=
  zfill width (hex_digits (S (Z.to_nat (Z.log2 n))) n "").

(** Rounding of a rational to the nearest integer, ties to even. *)
Definition round_half_even (q : Q) : Z :=
  let n := Qnum q in
  let d := Z.pos (Qden q) in
  let f := n `div` d in
  let r2 := 2 * (n `mod` d) in
  if decide (r2 < d) then f
  else if decide (d < r2) then f + 1
  else if Z.even f then f else f + 1.

(** [f"{x:.2f}"] for [x >= 0] *)
Definition fmt_2f (x : Q) : string :=
  let h := round_half_even (x * 100) in
  pretty (h `div` 100) +:+ "." +:+ zfill 2 (pretty (h `mod` 100)).

(** ** Simulator state *)

(** A timestamp string, as the instant it denotes in milliseconds. *)
Definition Timestamp := Z.

Record LogEntry := mkLogEntry {
  timestamp : Timestamp;
  severity  : Severity;
  node_id   : Z;
  component : Component;
  message   : string
}.

(** The constructor arguments of [BGLLogSimulator]. *)
Record Config := mkConfig {
  num_nodes : Z;
  num_components : Z;
  error_rate : Q;
  anomaly_probability : Q
}.

(** The mutable attributes of the instance, and the cursor of the random
    generator.  [active_anomalies] is a [defaultdict(list)]: an association
    list in insertion order, one entry per key. *)
Record Sim := mkSim {
  node_status : gmap Z Status;
  current_time : Z;
  active_anomalies : list (AnomalyKind * list Z);
  rng_pos : nat
}.

(** ** The state-and-exception monad *)

Inductive Exn := ValueError | IndexError | KeyError.

Inductive Result (A : Type) :=
  | Ok (a : A) (s : Sim)
  | Raise (e : Exn) (s : Sim).
Arguments Ok {A} a s.
Arguments Raise {A} e s.

Definition M (A : Type) : Type := Sim → Result A.

#[global] Instance M_ret : MRet M := λ A a s, Ok a s.
#[global] Instance M_bind : MBind M := λ A B f m s,
  match m s with
  | Ok a s' => f a s'
  | Raise e s' => Raise e s'
  end.
#[global] Instance M_fmap : FMap M := λ A B f m s,
  match m s with
  | Ok a s' => Ok (f a) s'
  | Raise e s' => Raise e s'
  end.

Definition raise {A} (e : Exn) : M A := λ s, Raise e s.
Definition get_sim : M Sim := λ s, Ok s s.
Definition final_state {A} (r : Result A) : Sim :=
  match r with Ok _ s => s | Raise _ s => s end.

(** [for x in l: ...; messages.append(entry)] *)
Fixpoint for_each {A B} (l : list A) (body : A → M B) : M (list B) :=
  match l with
  | [] => mret []
  | x :: l' => b ← body x; bs ← for_each l' body; mret (b :: bs)
  end.

(** [for _ in range(n): ...; logs.extend(entries)] *)
Fixpoint repeat_extend {B} (n : nat) (body : M (list B)) : M (list B) :=
  match n with
  | O => mret []
  | S n' => bs ← body; rest ← repeat_extend n' body; mret (bs ++ rest)
  end.

(** ** The registry of active anomalies *)

(** [registry[kind]], without the insertion a [defaultdict] performs for a
    missing key: an absent key reads as the empty list. *)
Fixpoint registry_get (reg : list (AnomalyKind * list Z)) (kind : AnomalyKind)
  : list Z :=
  match reg with
  | [] => []
  | (k, v) :: reg' => if decide (k = kind) then v else registry_get reg' kind
  end.

(** [registry[kind] = nodes]: in place for a present key, appended otherwise. *)
Fixpoint registry_set (reg : list (AnomalyKind * list Z)) (kind : AnomalyKind)
  (nodes : list Z) : list (AnomalyKind * list Z) :=
  match reg with
  | [] => [(kind, nodes)]
  | (k, v) :: reg' =>
      if decide (k = kind) then (k, nodes) :: reg'
      else (k, v) :: registry_set reg' kind nodes
  end.

(** [any(registry.values())] *)
Definition any_active (reg : list (AnomalyKind * list Z)) : bool :=
  existsb (λ kv, negb (bool_decide (kv.2 = []))) reg.

(** ** State accessors *)

(** [self.node_status[node_id]]: [KeyError] for a missing key. *)
Definition get_status (node_id : Z) : M Status := λ s,
  match node_status s !! node_id with
  | Some st => Ok st s
  | None => Raise KeyError s
  end.

(** [self.node_status[node_id] = st] *)
Definition set_status (node_id : Z) (st : Status) : M unit := λ s,
  Ok () (mkSim (<[node_id := st]> (node_status s)) (current_time s)
               (active_anomalies s) (rng_pos s)).

(** [self.active_anomalies[kind].extend(nodes)]; reading a missing key of the
    [defaultdict] first inserts the empty list. *)
Definition registry_extend (kind : AnomalyKind) (nodes : list Z) : M unit := λ s,
  let reg := active_anomalies s in
  Ok () (mkSim (node_status s) (current_time s)
               (registry_set reg kind (registry_get reg kind ++ nodes)) (rng_pos s)).

(** [self.active_anomalies[kind] = []] *)
Definition registry_clear (kind : AnomalyKind) : M unit := λ s,
  Ok () (mkSim (node_status s) (current_time s)
               (registry_set (active_anomalies s) kind []) (rng_pos s)).

(** [self.current_time += datetime.timedelta(microseconds=us)] *)
Definition advance_clock (us : Z) : M unit := λ s,
  Ok () (mkSim (node_status s) (current_time s + us)
               (active_anomalies s) (rng_pos s)).

(** [datetime.timedelta(seconds=x)] keeps whole microseconds. *)
Definition timedelta_seconds (x : Q) : Z := round_half_even (x * 1000000).

(** [t.strftime("%Y-%m-%d-%H.%M.%S.%f")[:-3]]: the last three digits of the
    microseconds are cut off. *)
Definition strftime_ms (t : Z) : Timestamp := t `div` 1000.

(** The decimal text standing for a timestamp inside a message. *)
Definition show_timestamp (t : Timestamp) : string := pretty t.

(** The literals [0.1] and [0.3], as the doubles Python reads them. *)
Definition float_0_1 : Q := 3602879701896397 # 36028797018963968.
Definition float_0_3 : Q := 5404319552844595 # 18014398509481984.

(** [a < b] on floats *)
Definition Qltb (a b : Q) : bool := negb (Qle_bool b a).

(** ** The random generator *)

Section Simulator.

Variable cfg : Config.
(** The raw output of the random generator, one cell per draw. *)
Variable tape : nat → Z.

Definition draw : M Z := λ s,
  Ok (tape (rng_pos s))
     (mkSim (node_status s) (current_time s) (active_anomalies s) (S (rng_pos s))).

(** [random.random()]: a multiple of [2^-53] in [[0, 1)]. *)
Definition random : M Q :=
  k ← draw; mret (k `mod` 9007199254740992 # 9007199254740992).

(** [random.randint(a, b)]: both ends included; [ValueError] on an empty
    range. *)
Definition randint (a b : Z) : M Z :=
  if decide (b < a) then raise ValueError
  else k ← draw; mret (a + k `mod` (b - a + 1)).

(** [random.choice(seq)]: [IndexError] on an empty sequence. *)
Definition choice {A} (seq : list A) : M A :=
  match seq with
  | [] => raise IndexError
  | x :: _ =>
      k ← draw; mret (nth (Z.to_nat (k `mod` Z.of_nat (length seq))) seq x)
  end.

(** [random.uniform(a, b)] *)
Definition uniform (a b : Q) : M Q :=
  r ← random; mret (a + (b - a) * r)%Q.

(** Selection without replacement out of [pool]. *)
Fixpoint sample_from (pool : list Z) (k : nat) : M (list Z) :=
  match k with
  | O => mret []
  | S k' =>
      x ← choice pool;
      rest ← sample_from (List.remove Z.eq_dec x pool) k';
      mret (x :: rest)
  end.

(** [random.sample(range(n), k)]: [k] distinct elements; [ValueError] when
    [k] is negative or exceeds the size of the range. *)
Definition sample_range (n k : Z) : M (list Z) :=
  if decide (0 ≤ k ≤ Z.max n 0) then sample_from (seqZ 0 n) (Z.to_nat k)
  else raise ValueError.

Fixpoint accumulate (acc : Q) (ws : list Q) : list Q :=
  match ws with
  | [] => []
  | w :: ws' => (acc + w)%Q :: accumulate (acc + w)%Q ws'
  end.

(** [bisect.bisect_right(a, x, 0, hi)] on a sorted list. *)
Fixpoint bisect (a : list Q) (x : Q) (hi : nat) : nat :=
  match hi, a with
  | S hi', c :: a' => if Qltb x c then O else S (bisect a' x hi')
  | _, _ => O
  end.

(** [random.choices(population, weights=weights)[0]] *)
Definition choices {A} (population : list A) (weights : list Q) : M A :=
  let cum_weights := accumulate 0 weights in
  let total := List.last cum_weights 0%Q in
  if Qle_bool total 0 then raise ValueError
  else
    r ← random;
    match population !! bisect cum_weights (r * total) (length population - 1) with
    | Some x => mret x
    | None => raise IndexError
    end.

(** ** Severity model *)

(** A dictionary with the four severities as keys, in the order
    INFO, WARNING, ERROR, FATAL. *)
Record Weights := mkWeights { w_INFO : Q; w_WARNING : Q; w_ERROR : Q; w_FATAL : Q }.

Definition severity_levels : Weights :=
  mkWeights (7 # 10) (15 # 100) (1 # 10) (5 # 100).

Definition components : list Component :=
  [KERNEL; MEMORY; NETWORK; IO; PROCESSOR;
   FILESYSTEM; SCHEDULER; POWER; TEMPERATURE; APPLICATION].

Definition weight_values (w : Weights) : list Q :=
  [w_INFO w; w_WARNING w; w_ERROR w; w_FATAL w].

Definition _get_severity (component : Component) (node_id : Z) : M Severity :=
  st ← get_status node_id;
  severity_weights ←
    (if decide (st ≠ OPERATIONAL) then
       mret (mkWeights (2 # 10) (3 # 10) (4 # 10) (1 # 10))
     else
       let w := severity_levels in
       r ← random;
       if Qltb r (error_rate cfg) then
         mret (mkWeights (w_INFO w) (w_WARNING w * (12 # 10))
                         (w_ERROR w * (12 # 10)) (w_FATAL w * (12 # 10)))%Q
       else
         mret (mkWeights (w_INFO w * (12 # 10)) (w_WARNING w) (w_ERROR w) (w_FATAL w))%Q);
  let severity_weights :=
    if bool_decide (component ∈ [MEMORY; PROCESSOR; POWER]) then
      let w := severity_weights in
      (mkWeights (w_INFO w) (w_WARNING w) (w_ERROR w * (12 # 10)) (w_FATAL w * (11 # 10)))%Q
    else severity_weights in
  let severity_weights :=
    if bool_decide (component ∈ [SCHEDULER; FILESYSTEM; NETWORK]) then
      let w := severity_weights in
      (mkWeights (w_INFO w * (12 # 10)) (w_WARNING w) (w_ERROR w) (w_FATAL w))%Q
    else severity_weights in
  let total := foldr Qplus 0%Q (weight_values severity_weights) in
  let weights := (λ v, v / total)%Q <$> weight_values severity_weights in
  choices [INFO; WARNING; ERROR; FATAL] weights.

(** ** Timestamps and log lines *)

Definition _generate_timestamp : M Timestamp :=
  r ← random;
  let interval := (r * 5)%Q in
  advance_clock (timedelta_seconds interval);;
  s ← get_sim;
  mret (strftime_ms (current_time s)).

Definition _format_log_entry (timestamp : Timestamp) (node_id : Z)
  (component : Component) (severity : Severity) (message : string) : LogEntry :=
  mkLogEntry timestamp severity node_id component message.

(** ** Template catalog *)

(** [self.message_templates[component]] after [_init_message_templates] has
    appended the extra INFO-style templates. *)
Definition message_templates (component : Component) : list Template :=
  match component with
  | KERNEL =>
      [tpl "Kernel panic on node {node_id}, process {pid} terminated";
       tpl "Memory allocation failed at address 0x{address}";
       tpl "System call {syscall} failed with error {errno}";
       tpl "Kernel module {module} loaded successfully";
       tpl "Process {pid} started with priority {priority}"]
      ++
      [tpl "Kernel update completed successfully on node {node_id}";
       tpl "Task scheduler optimized on node {node_id}";
       tpl "System performance metrics collected on node {node_id}"]
  | MEMORY =>
      [tpl "Memory usage at {percent}% on node {node_id}";
       tpl "Memory leak detected in process {pid}";
       tpl "Out of memory error, killed process {pid}";
       tpl "Memory page fault at address 0x{address}";
       tpl "Memory check completed: {status}"]
      ++
      [tpl "Memory test passed on node {node_id}";
       tpl "Memory allocation pool optimized";
       tpl "Swap usage at {percent}% on node {node_id}"]
  | NETWORK =>
      [tpl "Network interface {interface} down on node {node_id}";
       tpl "Packet loss detected between nodes {node_id} and {target_node}";
       tpl "Network throughput dropped to {bandwidth} MB/s";
       tpl "TCP connection timeout on port {port}";
       tpl "Link flapping detected on interface {interface}"]
      ++
      [tpl "Network bandwidth test completed on node {node_id}: {bandwidth} MB/s";
       tpl "Connectivity verified between node {node_id} and {target_node}";
       tpl "Network configuration updated on node {node_id}"]
  | IO =>
      [tpl "I/O error on device {device} sector {sector}";
       tpl "Disk {disk} full on node {node_id}";
       tpl "Read timeout on device {device}";
       tpl "Write error on file {filename}";
       tpl "I/O wait time increased to {wait_time} ms"]
      ++
      [tpl "Disk performance test completed on node {node_id}";
       tpl "I/O scheduler switched to {scheduler} on node {node_id}";
       tpl "Device {device} read speed: {speed} MB/s"]
  | PROCESSOR =>
      [tpl "CPU temperature at {temp}°C on node {node_id}";
       tpl "CPU utilization at {percent}% on node {node_id}";
       tpl "Processor {core} throttling due to temperature";
       tpl "Instruction cache error on core {core}";
       tpl "Processor completed {cycles} cycles"]
      ++
      [tpl "CPU idle at {percent}% on node {node_id}";
       tpl "Processor frequency scaled to {freq} GHz";
       tpl "Core {core} running optimally on node {node_id}"]
  | FILESYSTEM =>
      [tpl "Filesystem {fs} mounted on node {node_id}";
       tpl "File corruption detected at {path}";
       tpl "Inode table overflow on {fs}";
       tpl "Filesystem {fs} remounted read-only due to errors";
       tpl "Journal commit failure on {fs}"]
      ++
      [tpl "Routine filesystem check passed on {fs}";
       tpl "Quota usage at {percent}% on filesystem {fs}";
       tpl "Filesystem {fs} defragmentation completed"]
  | SCHEDULER =>
      [tpl "Job {job_id} scheduled on nodes {node_range}";
       tpl "Job {job_id} failed with exit code {exit_code}";
       tpl "Scheduler queue full, rejecting new jobs";
       tpl "Resource allocation failed for job {job_id}";
       tpl "Job {job_id} completed in {duration} seconds"]
      ++
      [tpl "Queue status: {waiting} jobs waiting, {running} jobs running";
       tpl "Scheduler load balanced across {count} nodes";
       tpl "Resource availability updated: {cpu_free} CPUs, {mem_free} GB memory"]
  | POWER =>
      [tpl "Power supply {psu} failed on rack {rack_id}";
       tpl "Entering power saving mode on node {node_id}";
       tpl "Power consumption at {watts} watts";
       tpl "Voltage fluctuation detected on rail {rail}";
       tpl "UPS activated due to power instability"]
      ++
      [tpl "Power supply status normal on rack {rack_id}";
       tpl "Energy efficiency optimized on node {node_id}";
       tpl "Power consumption within normal parameters"]
  | TEMPERATURE =>
      [tpl "Temperature critical at {temp}°C in rack {rack_id}";
       tpl "Cooling fan {fan_id} failed in node {node_id}";
       tpl "Temperature normalized at {temp}°C";
       tpl "Thermal throttling activated on node {node_id}";
       tpl "HVAC system error code {error_code}"]
      ++
      [tpl "Temperature stable at {temp}°C in rack {rack_id}";
       tpl "Cooling system operating normally on node {node_id}";
       tpl "HVAC maintenance completed successfully"]
  | APPLICATION =>
      [tpl "Application {app_name} crashed with signal {signal}";
       tpl "MPI communication timeout in job {job_id}";
       tpl "Checkpoint created for job {job_id} at {timestamp}";
       tpl "Application {app_name} requested {mem_amount} GB memory";
       tpl "Performance degradation detected in job {job_id}"]
      ++
      [tpl "Application {app_name} started successfully on node {node_id}";
       tpl "Job {job_id} resource usage within expected parameters";
       tpl "Application metrics collected for {app_name}"]
  end.

(** ** Placeholder resolver *)

(** One [if "{name}" in message: message = message.replace("{name}", v)]
    block: the value is generated only when the placeholder occurs. *)
Definition fill_if (name : string) (gen : M string) (message : Template)
  : M Template :=
  if has_hole name message then v ← gen; mret (replace_hole name v message)
  else mret message.

Fixpoint fill_all (rules : list (string * M string)) (message : Template)
  : M Template :=
  match rules with
  | [] => mret message
  | (name, gen) :: rules' =>
      message' ← fill_if name gen message; fill_all rules' message'
  end.

(** The blocks of [_fill_template_placeholders], in the order of the source. *)
Definition placeholder_rules (node_id : Z) : list (string * M string) :=
  [ ("node_id", mret (fmt_d 4 node_id));
    ("pid", str <$> randint 1 32768);
    ("address", fmt_x 8 <$> randint 0 4294967295);
    ("percent", str <$> randint 1 100);
    ("status", choice ["SUCCESS"; "FAILURE"; "WARNING"; "PARTIAL"]);
    ("interface", (λ n, "eth" +:+ str n) <$> randint 0 3);
    ("target_node", fmt_d 4 <$> randint 0 (num_nodes cfg - 1));
    ("bandwidth", str <$> randint 10 1000);
    ("port", str <$> randint 1024 65535);
    ("device", (λ c, "/dev/sd" +:+ c) <$> choice ["a"; "b"; "c"; "d"; "e"; "f"; "g"; "h"]);
    ("disk", (λ c, "/dev/sd" +:+ c) <$> choice ["a"; "b"; "c"; "d"; "e"; "f"; "g"; "h"]);
    ("sector", str <$> randint 0 999999);
    ("temp", str <$> randint 25 85);
    ("filename", (λ n, "/path/to/file_" +:+ str n +:+ ".dat") <$> randint 1 1000);
    ("wait_time", str <$> randint 5 500);
    ("core", str <$> randint 0 31);
    ("cycles", str <$> randint 1000000 9999999);
    ("fs", choice ["/home"; "/scratch"; "/tmp"; "/var"; "/usr"]);
    ("path", (λ n, "/path/to/file_" +:+ str n +:+ ".dat") <$> randint 1 1000);
    ("job_id", str <$> randint 1000 9999);
    ("exit_code", str <$> randint 1 255);
    ("node_range",
       start ← randint 0 (num_nodes cfg - 10);
       len ← randint 1 10;
       let end_ := start + len in
       mret (fmt_d 4 start +:+ "-" +:+ fmt_d 4 end_));
    ("duration", str <$> randint 10 86400);
    ("psu", (λ n, "PSU" +:+ str n) <$> randint 1 4);
    ("rack_id", (λ n, "R" +:+ fmt_d 2 n) <$> randint 1 16);
    ("watts", str <$> randint 100 1500);
    ("rail", choice ["3.3V"; "5V"; "12V"]);
    ("fan_id", (λ n, "FAN" +:+ str n) <$> randint 1 8);
    ("error_code", (λ n, "E" +:+ fmt_d 3 n) <$> randint 1 999);
    ("app_name", choice ["mpi_app"; "linpack"; "hpcg"; "gromacs"; "namd"; "vasp"]);
    ("signal", choice ["SIGSEGV"; "SIGABRT"; "SIGTERM"; "SIGKILL"]);
    ("timestamp", show_timestamp <$> _generate_timestamp);
    ("mem_amount", str <$> randint 1 128);
    ("syscall", choice ["read"; "write"; "open"; "close"; "fork"; "exec"]);
    ("errno", str <$> randint 1 255);
    ("module", choice ["nvidia"; "infiniband"; "lustre"; "nfs"; "rdma"]);
    ("priority", str <$> randint 1 99);
    ("scheduler", choice ["cfq"; "noop"; "deadline"]);
    ("speed", str <$> randint 50 500);
    ("freq", fmt_2f <$> uniform 2 4);
    ("waiting", str <$> randint 0 100);
    ("running", str <$> randint 10 500);
    ("count", str <$> randint 2 64);
    ("cpu_free", str <$> randint 10 1000);
    ("mem_free", str <$> randint 100 10000) ]%string.

Definition _fill_template_placeholders (template : Template) (node_id : Z)
  : M string :=
  render <$> fill_all (placeholder_rules node_id) template.

(** ** Anomaly engine *)

(** [seq[0]]: [IndexError] on an empty list. *)
Definition first_item {A} (seq : list A) : M A :=
  match seq with
  | [] => raise IndexError
  | x :: _ => mret x
  end.

Definition read_registry : M (list (AnomalyKind * list Z)) :=
  λ s, Ok (active_anomalies s) s.

Definition anomaly_kinds : list AnomalyKind :=
  [network_partition; rack_power_failure; filesystem_corruption;
   memory_errors; overheating].

(** The [if]/[elif] chain of [_create_anomaly] on the chosen kind. *)
Definition _create_anomaly_branch (anomaly_type : AnomalyKind)
  : M (list LogEntry * list Z) :=
  match anomaly_type with
  | network_partition =>
      start_node ← randint 0 (num_nodes cfg - 100);
      affected_count ← randint 10 100;
      let affected_nodes := seqZ start_node affected_count in
      messages ← for_each affected_nodes (λ node_id,
        set_status node_id NETWORK_DEGRADED;;
        let component := NETWORK in
        let severity := ERROR in
        let template :=
          tpl "Network connectivity lost on node {node_id}, isolating from cluster" in
        message ← _fill_template_placeholders template node_id;
        timestamp ← _generate_timestamp;
        mret (_format_log_entry timestamp node_id component severity message));
      registry_extend network_partition affected_nodes;;
      mret (messages, affected_nodes)
  | rack_power_failure =>
      rack_id ← randint 0 (num_nodes cfg `div` 32 - 1);
      let start_node := rack_id * 32 in
      let affected_nodes := seqZ start_node 32 in
      let severity := FATAL in
      let component := POWER in
      let template := tpl "Power supply failure on rack {rack_id}, nodes shutting down" in
      let message := render (replace_hole "rack_id" ("R" +:+ fmt_d 2 rack_id) template) in
      timestamp ← _generate_timestamp;
      first ← first_item affected_nodes;
      let master := _format_log_entry timestamp first component severity message in
      messages ← for_each affected_nodes (λ node_id,
        set_status node_id POWERED_OFF;;
        let template := tpl "Node {node_id} shutting down due to power failure" in
        message ← _fill_template_placeholders template node_id;
        timestamp ← _generate_timestamp;
        mret (_format_log_entry timestamp node_id component ERROR message));
      registry_extend rack_power_failure affected_nodes;;
      mret (master :: messages, affected_nodes)
  | filesystem_corruption =>
      affected_count ← randint 5 20;
      affected_nodes ← sample_range (num_nodes cfg) affected_count;
      fs_name ← choice ["/home"; "/scratch"; "/tmp"]%string;
      let severity := ERROR in
      let component := FILESYSTEM in
      messages ← for_each affected_nodes (λ node_id,
        set_status node_id FILESYSTEM_ERROR;;
        let template :=
          tpl "Filesystem " ++ lit fs_name ++
          tpl " corruption detected on node {node_id}, remounting read-only" in
        message ← _fill_template_placeholders template node_id;
        timestamp ← _generate_timestamp;
        mret (_format_log_entry timestamp node_id component severity message));
      registry_extend filesystem_corruption affected_nodes;;
      mret (messages, affected_nodes)
  | memory_errors =>
      node_id ← randint 0 (num_nodes cfg - 1);
      let affected_nodes := [node_id] in
      set_status node_id MEMORY_ERROR;;
      error_count ← randint 3 10;
      let component := MEMORY in
      messages ← for_each (seqZ 0 error_count) (λ i,
        '(severity, template) ←
          (if decide (i < 2) then
             mret (WARNING,
                   tpl "Memory ECC error detected at address 0x{address} on node {node_id}")
           else if decide (i < error_count - 1) then
             let template :=
               tpl "Multiple memory errors detected on node {node_id}, DIMM {dimm_id} failing" in
             dimm ← randint 0 7;
             mret (ERROR, replace_hole "dimm_id" ("DIMM" +:+ str dimm) template)
           else
             mret (FATAL,
                   tpl "Uncorrectable memory errors on node {node_id}, taking node offline"));
        message ← _fill_template_placeholders template node_id;
        timestamp ← _generate_timestamp;
        mret (_format_log_entry timestamp node_id component severity message));
      registry_extend memory_errors [node_id];;
      mret (messages, affected_nodes)
  | overheating =>
      start_node ← randint 0 (num_nodes cfg - 32);
      affected_count ← randint 5 32;
      let affected_nodes := seqZ start_node affected_count in
      let component := TEMPERATURE in
      messages ← for_each affected_nodes (λ node_id,
        set_status node_id OVERHEATING;;
        temp ← randint 75 95;
        let '(severity, template) :=
          if decide (90 < temp) then
            (FATAL,
             tpl "CRITICAL: Temperature at {temp}°C on node {node_id}, emergency shutdown initiated")
          else if decide (85 < temp) then
            (ERROR,
             tpl "Temperature threshold exceeded at {temp}°C on node {node_id}, throttling enabled")
          else
            (WARNING, tpl "High temperature warning at {temp}°C on node {node_id}") in
        let template := replace_hole "temp" (str temp) template in
        message ← _fill_template_placeholders template node_id;
        timestamp ← _generate_timestamp;
        mret (_format_log_entry timestamp node_id component severity message));
      registry_extend overheating affected_nodes;;
      mret (messages, affected_nodes)
  end.

Definition _create_anomaly : M (list LogEntry * list Z) :=
  anomaly_type ← choice anomaly_kinds;
  _create_anomaly_branch anomaly_type.

(** The branch of [_continue_anomaly] taken on the 10% draw. *)
Definition resolve_branch (anomaly_type : AnomalyKind) (affected_nodes : list Z)
  : M (list LogEntry) :=
  match anomaly_type with
  | network_partition =>
      let component := NETWORK in
      let template := tpl "Network connectivity restored on node {node_id}" in
      let severity := INFO in
      messages ← for_each affected_nodes (λ node_id,
        set_status node_id OPERATIONAL;;
        message ← _fill_template_placeholders template node_id;
        timestamp ← _generate_timestamp;
        mret (_format_log_entry timestamp node_id component severity message));
      registry_clear anomaly_type;;
      mret messages
  | rack_power_failure =>
      let component := POWER in
      let template := tpl "Power restored to rack, initiating node startup sequence" in
      let severity := INFO in
      node_id ← first_item affected_nodes;
      let rack_id := node_id `div` 32 in
      let message := render (replace_hole "rack_id" ("R" +:+ fmt_d 2 rack_id) template) in
      timestamp ← _generate_timestamp;
      let master := _format_log_entry timestamp node_id component severity message in
      messages ← for_each affected_nodes (λ node_id,
        set_status node_id OPERATIONAL;;
        let template := tpl "Node {node_id} power on self-test completed successfully" in
        message ← _fill_template_placeholders template node_id;
        timestamp ← _generate_timestamp;
        mret (_format_log_entry timestamp node_id component severity message));
      registry_clear anomaly_type;;
      mret (master :: messages)
  | filesystem_corruption =>
      let component := FILESYSTEM in
      let severity := INFO in
      messages ← for_each affected_nodes (λ node_id,
        set_status node_id OPERATIONAL;;
        let template :=
          tpl "Filesystem check completed successfully on node {node_id}, remounting read-write" in
        message ← _fill_template_placeholders template node_id;
        timestamp ← _generate_timestamp;
        mret (_format_log_entry timestamp node_id component severity message));
      registry_clear anomaly_type;;
      mret messages
  | memory_errors =>
      node_id ← first_item affected_nodes;
      let component := MEMORY in
      let severity := INFO in
      let template :=
        tpl "Memory diagnostics completed on node {node_id}, DIMM replaced, node back online" in
      set_status node_id OPERATIONAL;;
      message ← _fill_template_placeholders template node_id;
      timestamp ← _generate_timestamp;
      let log_entry := _format_log_entry timestamp node_id component severity message in
      registry_clear anomaly_type;;
      mret [log_entry]
  | overheating =>
      let component := TEMPERATURE in
      let severity := INFO in
      messages ← for_each affected_nodes (λ node_id,
        set_status node_id OPERATIONAL;;
        let template :=
          tpl "Temperature normalized at {temp}°C on node {node_id}, resuming normal operation" in
        temp ← randint 45 65;
        let template := replace_hole "temp" (str temp) template in
        message ← _fill_template_placeholders template node_id;
        timestamp ← _generate_timestamp;
        mret (_format_log_entry timestamp node_id component severity message));
      registry_clear anomaly_type;;
      mret messages
  end.

(** The kind-specific part of the [else] branch: component, severity and
    template of the follow-up record. *)
Definition ongoing_template (anomaly_type : AnomalyKind) (node_id : Z)
  : M (Component * Severity * Template) :=
  match anomaly_type with
  | network_partition =>
      template ← choice
        [tpl "Failed to reestablish network connectivity on node {node_id}";
         tpl "Packet loss at {percent}% on node {node_id}, network degraded";
         tpl "Retry {attempt} to reconnect node {node_id} failed"];
      attempt ← randint 1 5;
      mret (NETWORK, ERROR, replace_hole "attempt" (str attempt) template)
  | rack_power_failure =>
      template ← choice
        [tpl "Power supply {psu} still offline on rack {rack_id}";
         tpl "UPS battery at {percent}%, critical level";
         tpl "Power restoration delayed, ETA {minutes} minutes"];
      minutes ← randint 5 30;
      let template := replace_hole "minutes" (str minutes) template in
      let rack_id := node_id `div` 32 in
      mret (POWER, ERROR, replace_hole "rack_id" ("R" +:+ fmt_d 2 rack_id) template)
  | filesystem_corruption =>
      template ← choice
        [tpl "Filesystem check found {count} corrupted inodes on node {node_id}";
         tpl "Repair attempt {attempt} failed on node {node_id}";
         tpl "I/O errors continue on device {device} on node {node_id}"];
      count ← randint 10 1000;
      let template := replace_hole "count" (str count) template in
      attempt ← randint 1 3;
      mret (FILESYSTEM, ERROR, replace_hole "attempt" (str attempt) template)
  | memory_errors =>
      template ← choice
        [tpl "Memory errors continue on node {node_id}, address range 0x{address}";
         tpl "DIMM {dimm_id} scheduled for replacement on node {node_id}";
         tpl "Uncorrectable memory error at 0x{address} on node {node_id}"];
      dimm ← randint 0 7;
      mret (MEMORY, ERROR, replace_hole "dimm_id" ("DIMM" +:+ str dimm) template)
  | overheating =>
      temp ← randint 75 95;
      template ← choice
        [tpl "Temperature still critical at " ++ lit (str temp) ++ tpl "°C on node {node_id}";
         tpl "Cooling system failure persists on node {node_id}, temp " ++ lit (str temp) ++ tpl "°C";
         tpl "Unable to reduce temperature below " ++ lit (str temp) ++ tpl "°C on node {node_id}"];
      mret (TEMPERATURE, ERROR, template)
  end.

Definition _continue_anomaly : M (list LogEntry) :=
  reg ← read_registry;
  if decide (reg = []) then mret []
  else
    let active_anomalies := filter (λ kv, kv.2 ≠ []) reg in
    if decide (active_anomalies = []) then mret []
    else
      anomaly_type ← choice (active_anomalies.*1);
      let affected_nodes := registry_get active_anomalies anomaly_type in
      r ← random;
      if Qltb r float_0_1 then resolve_branch anomaly_type affected_nodes
      else
        reg ← read_registry;
        let nodes := registry_get reg anomaly_type in
        if decide (nodes = []) then mret []
        else
          node_id ← choice nodes;
          '(component, severity, template) ← ongoing_template anomaly_type node_id;
          message ← _fill_template_placeholders template node_id;
          timestamp ← _generate_timestamp;
          mret [_format_log_entry timestamp node_id component severity message].

(** ** Log stream generator *)

(** The tail of the loop body of [generate_logs]: one normal log. *)
Definition normal_log : M (list LogEntry) :=
  node_id ← randint 0 (num_nodes cfg - 1);
  component ← choice components;
  severity ← _get_severity component node_id;
  let templates := message_templates component in
  template ← choice templates;
  message ← _fill_template_placeholders template node_id;
  timestamp ← _generate_timestamp;
  mret [_format_log_entry timestamp node_id component severity message].

(** One iteration of the loop of [generate_logs]; the result is what the
    iteration adds to [logs]. *)
Definition tick : M (list LogEntry) :=
  r ← random;
  reg ← read_registry;
  if Qltb r (anomaly_probability cfg) && negb (any_active reg) then
    '(anomaly_logs, _) ← _create_anomaly; mret anomaly_logs
  else
    reg ← read_registry;
    go_on ← (if any_active reg then r' ← random; mret (Qltb r' float_0_3)
             else mret false);
    if go_on : bool then _continue_anomaly else normal_log.

Definition generate_logs (count : Z) : M (list LogEntry) :=
  repeat_extend (Z.to_nat count) tick.

(** [__init__]: every node of [range(num_nodes)] OPERATIONAL, the clock at
    [now], an empty registry. *)
Definition init (now : Z) : Sim :=
  mkSim (list_to_map ((λ n, (n, OPERATIONAL)) <$> seqZ 0 (num_nodes cfg)))
        now [] O.

End Simulator.

(** A finite prefix of raw draws, continued with zeros. *)
Definition tape_of (l : list Z) : nat → Z := λ n, nth n l 0.

(** * Vocabulary of the properties *)

(** ** Runs *)

(** [wp m Φ Ψ s]: run from [s], [m] either returns a value and a state
    satisfying [Φ], or raises in a state satisfying [Ψ]. *)
Definition wp {A} (m : M A) (Φ : A → Sim → Prop) (Ψ : Sim → Prop) (s : Sim)
  : Prop :=
  match m s with
  | Ok a s' => Φ a s'
  | Raise _ s' => Ψ s'
  end.

Definition result_value {A} (r : Result A) : option A :=
  match r with Ok a _ => Some a | Raise _ _ => None end.

Definition result_error {A} (r : Result A) : option Exn :=
  match r with Ok _ _ => None | Raise e _ => Some e end.

(** The records a run returned, field by field; none when it raised. *)
Definition records_of (r : Result (list LogEntry))
  : list (Timestamp * Severity * Z * Component * string) :=
  (λ e, (timestamp e, severity e, node_id e, component e, message e))
    <$> default [] (result_value r).

(** [returns r a]: the run [r] returned the value [a]. *)
Definition returns {A} (r : Result A) (a : A) : Prop := ∃ s', r = Ok a s'.

(** ** States *)

(** What every operation other than the status and registry writes
    guarantees: statuses and registry are untouched, the clock and the
    cursor of the generator only move forward. *)
Record frame (s s' : Sim) : Prop := mkFrame {
  frame_status : node_status s' = node_status s;
  frame_registry : active_anomalies s' = active_anomalies s;
  frame_clock : current_time s ≤ current_time s';
  frame_rng : (rng_pos s ≤ rng_pos s')%nat
}.

(** The timestamp a record would get in state [s]. *)
Definition ms (s : Sim) : Timestamp := strftime_ms (current_time s).

(** [stamped lo msgs hi]: the timestamps of [msgs] climb from [lo] to [hi]. *)
Fixpoint stamped (lo : Timestamp) (msgs : list LogEntry) (hi : Timestamp) : Prop :=
  match msgs with
  | [] => lo ≤ hi
  | e :: rest => lo ≤ timestamp e ∧ stamped (timestamp e) rest hi
  end.

(** No kind is active. *)
Definition quiet (s : Sim) : Prop := any_active (active_anomalies s) = false.

(** Two distinct kinds are active at once. *)
Definition two_kinds_active (s : Sim) : Prop :=
  ∃ k1 k2 nodes1 nodes2,
    k1 ≠ k2 ∧
    (k1, nodes1) ∈ active_anomalies s ∧ nodes1 ≠ [] ∧
    (k2, nodes2) ∈ active_anomalies s ∧ nodes2 ≠ [].

(** ** Onset and resolution *)

(** The status an onset of each kind assigns. *)
Definition degraded (kind : AnomalyKind) : Status :=
  match kind with
  | network_partition => NETWORK_DEGRADED
  | rack_power_failure => POWERED_OFF
  | filesystem_corruption => FILESYSTEM_ERROR
  | memory_errors => MEMORY_ERROR
  | overheating => OVERHEATING
  end.

(** The status table after [self.node_status[n] = st] for each [n] of
    [nodes], in order. *)
Definition set_all (st : Status) (nodes : list Z) (m : gmap Z Status)
  : gmap Z Status :=
  foldl (λ m n, <[n := st]> m) m nodes.

(** The state after an onset of [kind] on [affected], started in [s]. *)
Definition onset_post (kind : AnomalyKind) (s : Sim) (affected : list Z)
  (s' : Sim) : Prop :=
  node_status s' = set_all (degraded kind) affected (node_status s) ∧
  active_anomalies s' =
    registry_set (active_anomalies s) kind
      (registry_get (active_anomalies s) kind ++ affected) ∧
  current_time s ≤ current_time s'.

(** What the network_partition row of the specification says of one onset:
    the affected ids are [start .. start+len-1] with [start] in [[lo, hi)]
    and [len] in [[10, 100]]. *)
Definition network_range (lo hi : Z) (affected : list Z) : Prop :=
  ∃ start len, lo ≤ start < hi ∧ 10 ≤ len ≤ 100 ∧ affected = seqZ start len.

(** The component named in the recovery records of each kind. *)
Definition recovery_component (kind : AnomalyKind) : Component :=
  match kind with
  | network_partition => NETWORK
  | rack_power_failure => POWER
  | filesystem_corruption => FILESYSTEM
  | memory_errors => MEMORY
  | overheating => TEMPERATURE
  end.

(** The recovery record of node [n]. *)
Definition recovery_record (kind : AnomalyKind) (n : Z) (e : LogEntry) : Prop :=
  node_id e = n ∧ severity e = INFO ∧ component e = recovery_component kind.

(** One recovery record per affected node, after a master record on the
    first node for [rack_power_failure]. *)
Definition recovery_shape (kind : AnomalyKind) (affected : list Z)
  (msgs : list LogEntry) : Prop :=
  match kind with
  | rack_power_failure =>
      ∃ master rest first others,
        msgs = master :: rest ∧ affected = first :: others ∧
        node_id master = first ∧ severity master = INFO ∧
        component master = POWER ∧
        Forall2 (recovery_record kind) affected rest
  | _ => Forall2 (recovery_record kind) affected msgs
  end.

(** The state after resolving [kind], whose registry list was [affected]. *)
Definition resolve_post (kind : AnomalyKind) (s : Sim) (affected : list Z)
  (s' : Sim) : Prop :=
  node_status s' = set_all OPERATIONAL affected (node_status s) ∧
  active_anomalies s' = registry_set (active_anomalies s) kind [] ∧
  current_time s ≤ current_time s'.

(** ** Emitting loops *)

(** What one iteration of an emitting loop does: a status update [upd],
    an entry related to the loop variable by [R] and stamped in between. *)
Definition step_post {A} (upd : A → gmap Z Status → gmap Z Status)
  (R : A → LogEntry → Prop) (s1 : Sim) (x : A) (e : LogEntry) (s2 : Sim) : Prop :=
  node_status s2 = upd x (node_status s1) ∧
  active_anomalies s2 = active_anomalies s1 ∧
  current_time s1 ≤ current_time s2 ∧
  R x e ∧ ms s1 ≤ timestamp e ≤ ms s2.

(** What the whole loop over [l] does. *)
Definition loop_post {A} (upd : A → gmap Z Status → gmap Z Status)
  (R : A → LogEntry → Prop) (s : Sim) (l : list A) (out : list LogEntry)
  (s' : Sim) : Prop :=
  node_status s' = foldl (λ m x, upd x m) (node_status s) l ∧
  active_anomalies s' = active_anomalies s ∧
  current_time s ≤ current_time s' ∧
  Forall2 R l out ∧ stamped (ms s) out (ms s').

(** ** The generation loop *)

Section Vocabulary.

Variable cfg : Config.
Variable tape : nat → Z.

(** The two blocks of the placeholder resolver that can raise: their range
    is empty on a small cluster. *)
Definition raise_cond (name : string) : Prop :=
  (name = "target_node" ∧ num_nodes cfg < 1) ∨
  (name = "node_range" ∧ num_nodes cfg < 10).

(** A block of the resolver only moves the clock and the generator, and
    raises only under [raise_cond]. *)
Definition gen_ok (rule : string * M string) : Prop :=
  ∀ Φ Ψ s,
    (∀ v s', frame s s' → Φ v s') →
    (raise_cond rule.1 → Ψ s) →
    wp rule.2 Φ Ψ s.

(** The invariant of the generation loop: every node of the cluster has a
    status; at most one kind has a non-empty node list; a node is degraded,
    with the status of that kind, exactly when it is on the list; a
    [memory_errors] list has at most one node. *)
Record Inv (s : Sim) : Prop := mkInv {
  inv_dom : ∀ n, is_Some (node_status s !! n) ↔ 0 ≤ n < num_nodes cfg;
  inv_keys : NoDup (active_anomalies s).*1;
  inv_live : ∃ kind nodes,
    (∀ k, registry_get (active_anomalies s) k =
          if decide (k = kind) then nodes else []) ∧
    (∀ n st, node_status s !! n = Some st →
             st = if decide (n ∈ nodes) then degraded kind else OPERATIONAL) ∧
    Forall (λ n, 0 ≤ n < num_nodes cfg) nodes ∧
    (kind = memory_errors → (length nodes ≤ 1)%nat)
}.

(** What a tick that returns guarantees, and what one that raises does. *)
Definition tick_post (s : Sim) (msgs : list LogEntry) (s' : Sim) : Prop :=
  Inv s' ∧ Forall (λ e, 0 ≤ node_id e < num_nodes cfg) msgs ∧
  stamped (ms s) msgs (ms s') ∧ (1 ≤ length msgs)%nat.

Definition tick_exc (s' : Sim) : Prop := Inv s' ∧ num_nodes cfg < 100.

(** What [n] ticks guarantee. *)
Definition run_post (n : nat) (s : Sim) (logs : list LogEntry) (s' : Sim) : Prop :=
  Inv s' ∧ Forall (λ e, 0 ≤ node_id e < num_nodes cfg) logs ∧
  stamped (ms s) logs (ms s') ∧ (n ≤ length logs)%nat.

(** The chosen kind and the 10% draw send [_continue_anomaly] to the
    resolution branch for [kind]. *)
Definition takes_resolution_branch (s : Sim) (kind : AnomalyKind) : Prop :=
  ∃ s1 r s2,
    choice tape (filter (λ kv, kv.2 ≠ []) (active_anomalies s)).*1 s = Ok kind s1 ∧
    random tape s1 = Ok r s2 ∧ Qltb r float_0_1 = true.

End Vocabulary.

(** The states a simulator built by [__init__] can be in after any number of
    calls of [generate_logs], whether a call returned or raised. *)
Inductive reachable (cfg : Config) : Sim → Prop :=
  | reach_init now : reachable cfg (init cfg now)
  | reach_run tape count s :
      reachable cfg s →
      reachable cfg (final_state (generate_logs cfg tape count s)).

(** ** Vocabulary of the further properties *)

(** [datetime.max], 9999-12-31 23:59:59.999999, in microseconds since the
    epoch: [datetime] arithmetic raises [OverflowError] beyond it, and the
    embedding stands for the code while the clock stays below. *)
Definition datetime_max : Z := 253402300799999999.

(** Only draws were made: statuses, registry and clock are as before. *)
Record draws_only (s s' : Sim) : Prop := mkDrawsOnly {
  draws_status : node_status s' = node_status s;
  draws_registry : active_anomalies s' = active_anomalies s;
  draws_clock : current_time s' = current_time s;
  draws_rng : (rng_pos s ≤ rng_pos s')%nat
}.

(** The state [s] after [k] more draws and nothing else. *)
Definition after_draws (k : nat) (s : Sim) : Sim :=
  mkSim (node_status s) (current_time s) (active_anomalies s) (k + rng_pos s).

(** Statuses and registry are as before. *)
Definition unchanged (s s' : Sim) : Prop :=
  node_status s' = node_status s ∧ active_anomalies s' = active_anomalies s.

(** A piece of literal text. *)
Definition is_lit (tok : Token) : Prop :=
  match tok with Lit _ => True | Hole _ => False end.

(** [filled] is [template] with some placeholders replaced by a value: the
    fixed text is kept, in order, and a placeholder either stays or becomes
    one literal. *)
Definition keeps_text (template filled : Template) : Prop :=
  Forall2 (λ t f, match t with
                  | Lit _ => f = t
                  | Hole _ => f = t ∨ is_lit f
                  end) template filled.

(** The placeholders of a template, in order of occurrence. *)
Definition holes (t : Template) : list string :=
  omap (λ tok, match tok with Hole h => Some h | Lit _ => None end) t.

(** The placeholders [_fill_template_placeholders] has a block for, in the
    order of the blocks. *)
Definition placeholder_names : list string :=
  [ "node_id"; "pid"; "address"; "percent"; "status"; "interface";
    "target_node"; "bandwidth"; "port"; "device"; "disk"; "sector"; "temp";
    "filename"; "wait_time"; "core"; "cycles"; "fs"; "path"; "job_id";
    "exit_code"; "node_range"; "duration"; "psu"; "rack_id"; "watts"; "rail";
    "fan_id"; "error_code"; "app_name"; "signal"; "timestamp"; "mem_amount";
    "syscall"; "errno"; "module"; "priority"; "scheduler"; "speed"; "freq";
    "waiting"; "running"; "count"; "cpu_free"; "mem_free" ]%string.

(** The cluster size from which an onset of each kind can return, and the
    size from which it always returns; they differ for
    [filesystem_corruption], whose sample size of 5 to 20 is drawn. *)
Definition min_nodes (kind : AnomalyKind) : Z :=
  match kind with
  | network_partition => 100
  | rack_power_failure => 32
  | filesystem_corruption => 5
  | memory_errors => 1
  | overheating => 32
  end.

Definition enough_nodes (kind : AnomalyKind) : Z :=
  match kind with
  | filesystem_corruption => 20
  | _ => min_nodes kind
  end.

(** The chosen kind and the 10% draw send [_continue_anomaly] to the [else]
    branch, the follow-up record, for [kind]. *)
Definition takes_continuation_branch (tape : nat → Z) (s : Sim)
  (kind : AnomalyKind) : Prop :=
  ∃ s1 r s2,
    choice tape (filter (λ kv, kv.2 ≠ []) (active_anomalies s)).*1 s = Ok kind s1 ∧
    random tape s1 = Ok r s2 ∧ Qltb r float_0_1 = false.

(** The records of a run are sorted by timestamp. *)
Definition sorted_by_timestamp (logs : list LogEntry) : Prop :=
  ∀ (i j : nat) ei ej,
    (i ≤ j)%nat → logs !! i = Some ei → logs !! j = Some ej →
    timestamp ei ≤ timestamp ej.

(** ** Configurations and states used as examples *)

(** Five nodes, anomalies switched off. *)
Definition cfg_five_nodes : Config := mkConfig 5 10 (5 # 100) 0.

(** A cluster of 128 nodes with anomalies switched off. *)
Definition cfg_no_anomaly : Config := mkConfig 128 10 (5 # 100) 0.

(** A cluster of 128 nodes on which every tick may start an anomaly. *)
Definition cfg_anomalies : Config := mkConfig 128 10 (5 # 100) 1.

(** A cluster of 64 nodes, that is, two racks. *)
Definition cfg_two_racks : Config := mkConfig 64 10 (5 # 100) 1.

(** A cluster of four nodes. *)
Definition cfg_four_nodes : Config := mkConfig 4 10 (5 # 100) 1.

(** A cluster of 101 nodes. *)
Definition cfg_101_nodes : Config := mkConfig 101 10 (5 # 100) 1.

(** A cluster without nodes. *)
Definition cfg_no_nodes : Config := mkConfig 0 10 (5 # 100) 1.

(** The state of four nodes after one tick that started a [memory_errors]
    anomaly on node 2. *)
Definition after_memory_onset : Sim :=
  final_state (generate_logs cfg_four_nodes (tape_of [0; 3; 2; 1]) 1
                 (init cfg_four_nodes 0)).


(** * The embedding at work *)

(** A normal log whose template is "Checkpoint created for job {job_id} at
    {timestamp}": both draws of the clock add 2.5 s, the first for the
    placeholder, the second for the stamp of the record. *)
Example run_timestamp_placeholder :
  records_of
    (generate_logs cfg_no_anomaly
       (tape_of [0; 0; 9; 0; 0; 2; 0; 4503599627370496; 4503599627370496]) 1
       (init cfg_no_anomaly 0))
  = [(5000, INFO, 0, APPLICATION, "Checkpoint created for job 1000 at 2500")].
Proof. vm_compute. reflexivity. Qed.

(** A tick that starts a [memory_errors] anomaly on node 2 of four, with a
    cascade of four records. *)
Example run_memory_onset :
  records_of
    (generate_logs cfg_four_nodes (tape_of [0; 3; 2; 1]) 1 (init cfg_four_nodes 0))
  = [(0, WARNING, 2, MEMORY,
      "Memory ECC error detected at address 0x00000000 on node 0002");
     (0, WARNING, 2, MEMORY,
      "Memory ECC error detected at address 0x00000000 on node 0002");
     (0, ERROR, 2, MEMORY,
      "Multiple memory errors detected on node 0002, DIMM DIMM0 failing");
     (0, FATAL, 2, MEMORY,
      "Uncorrectable memory errors on node 0002, taking node offline")]
  ∧ active_anomalies after_memory_onset = [(memory_errors, [2])]
  ∧ node_status after_memory_onset !! 2 = Some MEMORY_ERROR.
Proof. vm_compute. done. Qed.

(** The next tick, with draws that resolve the anomaly. *)
Example run_memory_resolution :
  records_of (generate_logs cfg_four_nodes (tape_of []) 1 after_memory_onset)
  = [(0, INFO, 2, MEMORY,
      "Memory diagnostics completed on node 0002, DIMM replaced, node back online")].
Proof. vm_compute. reflexivity. Qed.

(** * Reasoning about the monad *)

Lemma frame_refl s : frame s s.
Proof. split; auto with lia. Qed.

Lemma frame_trans s1 s2 s3 : frame s1 s2 → frame s2 s3 → frame s1 s3.
Proof. intros [] []; split; try congruence; lia. Qed.

Lemma wp_ret {A} (a : A) Φ Ψ s : Φ a s → wp (mret a) Φ Ψ s.
Proof. auto. Qed.

Lemma wp_bind {A B} (m : M A) (f : A → M B) Φ Ψ s :
  wp m (λ a s', wp (f a) Φ Ψ s') Ψ s → wp (m ≫= f) Φ Ψ s.
Proof. unfold wp, mbind, M_bind. destruct (m s); auto. Qed.

Lemma wp_fmap {A B} (f : A → B) (m : M A) Φ Ψ s :
  wp m (λ a s', Φ (f a) s') Ψ s → wp (f <$> m) Φ Ψ s.
Proof. unfold wp, fmap, M_fmap. destruct (m s); auto. Qed.

Lemma wp_raise {A} e (Φ : A → Sim → Prop) (Ψ : Sim → Prop) s :
  Ψ s → wp (raise e) Φ Ψ s.
Proof. auto. Qed.

Lemma wp_mono {A} (m : M A) (Φ Φ' : A → Sim → Prop) (Ψ Ψ' : Sim → Prop) s :
  wp m Φ Ψ s → (∀ a s', Φ a s' → Φ' a s') → (∀ s', Ψ s' → Ψ' s') →
  wp m Φ' Ψ' s.
Proof. unfold wp. destruct (m s); auto. Qed.

Lemma wp_inv_ok {A} (m : M A) Φ s :
  wp m Φ (λ _, False) s → ∃ a s', m s = Ok a s' ∧ Φ a s'.
Proof. unfold wp. destruct (m s); [eauto | tauto]. Qed.

Section Specs.

Variable cfg : Config.
Variable tape : nat → Z.

Local Abbreviation N := (num_nodes cfg).
Local Abbreviation raise_cond := (raise_cond cfg).
Local Abbreviation gen_ok := (gen_ok cfg).
Local Abbreviation Inv := (Inv cfg).
Local Abbreviation tick_post := (tick_post cfg).
Local Abbreviation tick_exc := (tick_exc cfg).
Local Abbreviation run_post := (run_post cfg).
Local Abbreviation takes_resolution_branch := (takes_resolution_branch tape).

(** ** The generator *)

Lemma wp_draw Φ Ψ s :
  (∀ s', frame s s' → Φ (tape (rng_pos s)) s') → wp (draw tape) Φ Ψ s.
Proof. intros H. apply H. split; simpl; auto with lia. Qed.

Lemma wp_random Φ Ψ s :
  (∀ r s', (0 <= r)%Q → frame s s' → Φ r s') → wp (random tape) Φ Ψ s.
Proof.
  intros H. apply wp_bind, wp_draw. intros s' Hf. apply wp_ret, H; [|done].
  unfold Qle; simpl. pose proof (Z.mod_pos_bound (tape (rng_pos s)) 9007199254740992).
  lia.
Qed.

Lemma wp_randint a b Φ Ψ s :
  (b < a → Ψ s) →
  (∀ v s', a ≤ b → a ≤ v ≤ b → frame s s' → Φ v s') →
  wp (randint tape a b) Φ Ψ s.
Proof.
  intros HE HQ. unfold randint. case_decide; [by apply wp_raise, HE|].
  apply wp_bind, wp_draw. intros s' Hf. apply wp_ret, HQ; [lia| |done].
  pose proof (Z.mod_pos_bound (tape (rng_pos s)) (b - a + 1)). lia.
Qed.

Lemma wp_choice {A} (seq : list A) Φ Ψ s :
  (seq = [] → Ψ s) →
  (∀ x s', x ∈ seq → frame s s' → Φ x s') →
  wp (choice tape seq) Φ Ψ s.
Proof.
  intros HE HQ. destruct seq as [|x seq]; [by apply wp_raise, HE|].
  apply wp_bind, wp_draw. intros s' Hf. apply wp_ret, HQ; [|done].
  apply list_elem_of_In, nth_In.
  pose proof (Z.mod_pos_bound (tape (rng_pos s)) (Z.of_nat (length (x :: seq)))).
  simpl in *. lia.
Qed.

Lemma wp_uniform a b Φ Ψ s :
  (∀ r s', frame s s' → Φ r s') → wp (uniform tape a b) Φ Ψ s.
Proof.
  intros H. apply wp_bind, wp_random. intros r s' _ Hf. by apply wp_ret, H.
Qed.

Lemma remove_NoDup_length (x : Z) (pool : list Z) :
  NoDup pool → x ∈ pool →
  NoDup (remove Z.eq_dec x pool) ∧
  S (length (remove Z.eq_dec x pool)) = length pool.
Proof.
  induction 1 as [|y pool Hy Hnd IH]; intros Hx; [by apply elem_of_nil in Hx|].
  simpl. destruct (Z.eq_dec x y) as [->|Hne].
  - rewrite notin_remove by (by rewrite <- list_elem_of_In). done.
  - apply elem_of_cons in Hx as [?|Hx]; [done|]. destruct (IH Hx) as [IH1 IH2].
    split; [|simpl; lia]. constructor; [|done].
    rewrite list_elem_of_In. intros [? _]%in_remove. by apply Hy, list_elem_of_In.
Qed.

Lemma wp_sample_from pool k Φ Ψ s :
  NoDup pool →
  ((length pool < k)%nat → ∀ s', frame s s' → Ψ s') →
  (∀ l s', l ⊆ pool → length l = k → frame s s' → Φ l s') →
  wp (sample_from tape pool k) Φ Ψ s.
Proof.
  revert pool s Φ Ψ. induction k as [|k IH]; intros pool s Φ Ψ Hnd HE HQ; simpl.
  - apply wp_ret, HQ; [set_solver|done|apply frame_refl].
  - apply wp_bind, wp_choice.
    + intros ->. apply HE; [simpl; lia|apply frame_refl].
    + intros x s1 Hx Hf1.
      destruct (remove_NoDup_length x pool Hnd Hx) as [Hnd' Hlen'].
      apply wp_bind, IH; [done|..].
      * intros Hlen s2 Hf2. apply HE; [lia|by eapply frame_trans].
      * intros l s2 Hl Hlen Hf2. apply wp_ret, HQ; [|simpl; lia|by eapply frame_trans].
        intros y [->|Hy]%elem_of_cons; [done|].
        apply Hl, list_elem_of_In, in_remove in Hy as [Hy _]. by apply list_elem_of_In.
Qed.

Lemma wp_sample_range n k Φ Ψ s :
  (¬ 0 ≤ k ≤ Z.max n 0 → ∀ s', frame s s' → Ψ s') →
  (∀ l s', 0 ≤ k ≤ Z.max n 0 → Forall (λ x, 0 ≤ x < n) l → length l = Z.to_nat k →
           frame s s' → Φ l s') →
  wp (sample_range tape n k) Φ Ψ s.
Proof.
  intros HE HQ. unfold sample_range. case_decide as Hk.
  - apply wp_sample_from; [apply NoDup_seqZ|..].
    + rewrite length_seqZ. lia.
    + intros l s' Hl Hlen Hf. apply HQ; [done| |done..].
      apply Forall_forall. intros x Hx%Hl%elem_of_seqZ. lia.
  - apply wp_raise, HE; [done|apply frame_refl].
Qed.

(** ** State accessors *)

Lemma wp_get_status n Φ Ψ s :
  (node_status s !! n = None → Ψ s) →
  (∀ st, node_status s !! n = Some st → Φ st s) →
  wp (get_status n) Φ Ψ s.
Proof. intros HE HQ. unfold wp, get_status. destruct (_ !! _); auto. Qed.

Lemma wp_read_registry Φ Ψ s :
  Φ (active_anomalies s) s → wp read_registry Φ Ψ s.
Proof. auto. Qed.

Lemma wp_first_item {A} (l : list A) Φ Ψ s :
  (l = [] → Ψ s) → (∀ x l', l = x :: l' → Φ x s) → wp (first_item l) Φ Ψ s.
Proof. intros HE HQ. destruct l; [by apply HE|by eapply HQ]. Qed.

(** ** The clock *)

Lemma ms_mono s s' : current_time s ≤ current_time s' → ms s ≤ ms s'.
Proof. intros. apply Z.div_le_mono; lia. Qed.

Lemma round_half_even_nonneg q : (0 <= q)%Q → 0 ≤ round_half_even q.
Proof.
  unfold Qle, round_half_even; simpl. intros Hq.
  assert (0 ≤ Qnum q `div` Z.pos (Qden q)) by (apply Z.div_pos; lia).
  repeat case_decide; try lia. destruct (Z.even _); lia.
Qed.

Lemma wp_generate_timestamp Φ Ψ s :
  (∀ s', frame s s' → Φ (ms s') s') → wp (_generate_timestamp tape) Φ Ψ s.
Proof.
  intros H. unfold _generate_timestamp.
  apply wp_bind, wp_random. intros r s1 Hr [Hst Hreg Hclk Hrng].
  assert (0 ≤ timedelta_seconds (r * 5)).
  { apply round_half_even_nonneg. repeat apply Qmult_le_0_compat; done. }
  apply H. split; simpl; auto with lia.
Qed.

(** ** The placeholder resolver *)

Ltac gen_ok_tac :=
  lazymatch goal with
  | |- wp (mret _) _ _ _ => apply wp_ret
  | |- wp (_ <$> randint _ _ _) _ _ _ => apply wp_fmap, wp_randint; [intros; lia|]
  | |- wp (_ <$> choice _ _) _ _ _ => apply wp_fmap, wp_choice; [discriminate|]
  | |- wp (choice _ _) _ _ _ => apply wp_choice; [discriminate|]
  | |- wp (_ <$> uniform _ _ _) _ _ _ => apply wp_fmap, wp_uniform
  | |- wp (_ <$> _generate_timestamp _) _ _ _ => apply wp_fmap, wp_generate_timestamp
  end.

Lemma placeholder_rules_ok n : Forall gen_ok (placeholder_rules cfg tape n).
Proof.
  unfold placeholder_rules.
  repeat (apply Forall_cons; split);
    [intros Φ Ψ s HQ HE; cbn [fst snd] in *; try (gen_ok_tac; by eauto using frame_refl)..
    |by apply Forall_nil].
  - apply wp_fmap, wp_randint; [|by eauto].
    intros. apply HE. left. split; [done|lia].
  - apply wp_bind, wp_randint.
    + intros. apply HE. right. split; [done|lia].
    + intros start s1 _ _ Hf1. apply wp_bind, wp_randint; [lia|].
      intros len s2 _ _ Hf2. apply wp_ret, HQ. by eapply frame_trans.
Qed.

Lemma has_hole_replace name name' v msg :
  has_hole name (replace_hole name' v msg) = true → has_hole name msg = true.
Proof.
  unfold has_hole, replace_hole. rewrite !bool_decide_eq_true, list_elem_of_fmap.
  intros (tok & Heq & Hin). case_decide; [done|]. by subst.
Qed.

Lemma wp_fill_all rules msg Φ Ψ s :
  Forall gen_ok rules →
  (∀ msg' s', frame s s' → Φ msg' s') →
  (∀ name s', has_hole name msg = true → raise_cond name → frame s s' → Ψ s') →
  wp (fill_all rules msg) Φ Ψ s.
Proof.
  intros Hrules. revert msg s.
  induction Hrules as [|[name gen] rules Hgen _ IH]; intros msg s HQ HE; simpl.
  - apply wp_ret, HQ, frame_refl.
  - apply wp_bind. unfold fill_if. destruct (has_hole name msg) eqn:Hhole.
    + apply wp_bind, Hgen; simpl.
      * intros v s1 Hf1. apply wp_ret, IH.
        -- intros msg' s2 Hf2. apply HQ. by eapply frame_trans.
        -- intros name' s2 Hh%has_hole_replace Hc Hf2.
           eapply HE; [done..|by eapply frame_trans].
      * intros Hc. eapply HE; [done..|apply frame_refl].
    + apply wp_ret, IH; [done|]. intros name' s2 Hh Hc Hf2. by eapply HE.
Qed.

Lemma wp_fill template n Φ Ψ s :
  (∀ msg s', frame s s' → Φ msg s') →
  (∀ name s', has_hole name template = true → raise_cond name → frame s s' → Ψ s') →
  wp (_fill_template_placeholders cfg tape template n) Φ Ψ s.
Proof.
  intros HQ HE. apply wp_fmap, wp_fill_all; [apply placeholder_rules_ok|eauto..].
Qed.

(** ** Timestamps of an emitted sequence *)

Lemma stamped_app lo a mid b hi :
  stamped lo a mid → stamped mid b hi → stamped lo (a ++ b) hi.
Proof.
  revert lo. induction a as [|e a IH]; simpl; intros lo.
  - intros Hlo Hb. destruct b; simpl in *; [lia|]. split; [lia|tauto].
  - intros [? ?] ?. split; [done|]. by apply IH.
Qed.

Lemma stamped_weaken lo lo' msgs hi hi' :
  lo' ≤ lo → hi ≤ hi' → stamped lo msgs hi → stamped lo' msgs hi'.
Proof.
  intros Hlo Hhi H. apply (stamped_app lo' [] lo msgs hi'); [done|].
  rewrite <- (app_nil_r msgs). by eapply stamped_app.
Qed.

Lemma stamped_lower lo msgs hi e :
  stamped lo msgs hi → e ∈ msgs → lo ≤ timestamp e.
Proof.
  revert lo. induction msgs as [|e' rest IH]; simpl; intros lo H Hin.
  - by apply elem_of_nil in Hin.
  - destruct H as [Hlo H]. apply elem_of_cons in Hin as [->|Hin]; [done|].
    specialize (IH _ H Hin). lia.
Qed.

Lemma stamped_sorted lo msgs hi (i j : nat) ei ej :
  stamped lo msgs hi → (i ≤ j)%nat →
  msgs !! i = Some ei → msgs !! j = Some ej → timestamp ei ≤ timestamp ej.
Proof.
  revert lo i j. induction msgs as [|e rest IH]; intros lo i j H Hij Hi Hj; [done|].
  destruct H as [Hlo H]. destruct i as [|i], j as [|j]; simpl in *; try lia.
  - by simplify_eq.
  - simplify_eq. eapply stamped_lower; [done|]. by eapply list_elem_of_lookup_2.
  - eapply (IH _ i j); eauto with lia.
Qed.

(** ** Loops *)

Lemma wp_for_each_from {A B} (I : list A → list B → Sim → Prop)
  (body : A → M B) Ψ (rest : list A) :
  ∀ done out s,
    I done out s →
    (∀ done out x s1, I done out s1 → x ∈ rest →
       wp (body x) (λ b s2, I (done ++ [x]) (out ++ [b]) s2) Ψ s1) →
    wp (for_each rest body) (λ bs s', I (done ++ rest) (out ++ bs) s') Ψ s.
Proof.
  induction rest as [|x rest IH]; intros done out s HI Hbody; simpl.
  - apply wp_ret. by rewrite !app_nil_r.
  - apply wp_bind. eapply wp_mono; [apply (Hbody done out x s HI); left| |done].
    intros b s1 HI1; simpl. apply wp_bind.
    eapply wp_mono; [apply (IH _ _ _ HI1)| |done].
    + intros. apply Hbody; [done|by right].
    + intros bs s2 HI2. apply wp_ret. by rewrite <- !app_assoc in HI2.
Qed.

Lemma wp_for_each {A B} (I : list A → list B → Sim → Prop)
  (l : list A) (body : A → M B) Φ Ψ s :
  I [] [] s →
  (∀ done out x s1, I done out s1 → x ∈ l →
     wp (body x) (λ b s2, I (done ++ [x]) (out ++ [b]) s2) Ψ s1) →
  (∀ out s', I l out s' → Φ out s') →
  wp (for_each l body) Φ Ψ s.
Proof.
  intros HI Hbody HQ.
  eapply wp_mono; [by apply (wp_for_each_from I body Ψ l [] [] s)| |done].
  intros out s'; simpl. apply HQ.
Qed.

Lemma wp_emit_loop {A} upd R (l : list A) (body : A → M LogEntry) Φ Ψ s :
  (∀ x s1, x ∈ l → wp (body x) (step_post upd R s1 x) (λ _, False) s1) →
  (∀ out s', loop_post upd R s l out s' → Φ out s') →
  wp (for_each l body) Φ Ψ s.
Proof.
  intros Hbody HQ.
  apply (wp_for_each (loop_post upd R s)); [| |done].
  - repeat split; auto with lia. simpl. lia.
  - intros done out x s1 (Hst & Hreg & Hclk & HR & Hts) Hx.
    eapply wp_mono; [by apply Hbody| |done].
    intros e s2 (Hst2 & Hreg2 & Hclk2 & HR2 & Hts2).
    split_and!; [|congruence|lia| |].
    + by rewrite foldl_app, Hst2, Hst.
    + apply Forall2_app; [done|by constructor].
    + eapply stamped_app; [done|]. simpl. lia.
Qed.

(** ** Writes, and symbolic execution *)

Lemma wp_set_status n st Φ Ψ s :
  Φ () (mkSim (<[n := st]> (node_status s)) (current_time s)
              (active_anomalies s) (rng_pos s)) →
  wp (set_status n st) Φ Ψ s.
Proof. auto. Qed.

Lemma wp_registry_extend kind nodes Φ Ψ s :
  Φ () (mkSim (node_status s) (current_time s)
              (registry_set (active_anomalies s) kind
                 (registry_get (active_anomalies s) kind ++ nodes))
              (rng_pos s)) →
  wp (registry_extend kind nodes) Φ Ψ s.
Proof. auto. Qed.

Lemma wp_registry_clear kind Φ Ψ s :
  Φ () (mkSim (node_status s) (current_time s)
              (registry_set (active_anomalies s) kind []) (rng_pos s)) →
  wp (registry_clear kind) Φ Ψ s.
Proof. auto. Qed.

(** One step of symbolic execution, by the shape of the program. *)
Ltac wp_step :=
  lazymatch goal with
  | |- wp (mret _) _ _ _ => apply wp_ret
  | |- wp (_ ≫= _) _ _ _ => apply wp_bind
  | |- wp (_ <$> _) _ _ _ => apply wp_fmap
  | |- wp (raise _) _ _ _ => apply wp_raise
  | |- wp (set_status _ _) _ _ _ => apply wp_set_status
  | |- wp (registry_extend _ _) _ _ _ => apply wp_registry_extend
  | |- wp (registry_clear _) _ _ _ => apply wp_registry_clear
  | |- wp read_registry _ _ _ => apply wp_read_registry
  | |- wp (_generate_timestamp _) _ _ _ =>
      apply wp_generate_timestamp; intros ? ?
  | |- wp (_fill_template_placeholders _ _ _ _) _ _ _ =>
      apply wp_fill; [intros ? ? ?|intros ? ? ? ? ?]
  | |- wp (randint _ _ _) _ _ _ =>
      apply wp_randint; [intros ?; try lia|intros ? ? ? ? ?]
  | |- wp (choice _ _) _ _ _ =>
      apply wp_choice; [intros ?; try discriminate|intros ? ? ? ?]
  | |- wp (random _) _ _ _ => apply wp_random; intros ? ? ? ?
  | |- wp (first_item _) _ _ _ =>
      apply wp_first_item; [intros ?; try congruence|intros ? ? ?]
  | |- wp (if decide _ then _ else _) _ _ _ => case_decide
  | |- wp (let '(_, _) := (if decide _ then _ else _) in _) _ _ _ => case_decide
  | |- wp (let '(_, _) := (_, _) in _) _ _ _ => cbv beta iota
  | |- wp (let '(_, _) := ?p in _) _ _ _ => destruct p
  end.

Ltac wp_steps := repeat (cbv zeta; wp_step).

(** A template whose placeholders are known never makes the resolver raise. *)
Ltac no_raise :=
  lazymatch goal with
  | Hh : has_hole ?name _ = true, Hc : raise_cond ?name |- _ =>
      exfalso; clear - Hh Hc;
      destruct Hc as [[-> _]|[-> _]]; vm_compute in Hh; discriminate Hh
  end.

(** Frame facts, taken apart for [congruence] and [lia]. *)
Ltac frames :=
  repeat match goal with
         | H : frame _ _ |- _ => destruct H
         end;
  unfold ms, strftime_ms in *;
  cbn [node_status current_time active_anomalies rng_pos
       timestamp severity node_id component message _format_log_entry] in *.

Ltac solve_ts :=
  first [ apply Z.div_le_mono; lia
        | split; apply Z.div_le_mono; lia ].

(** ** Onset *)

(** Closes the goals left by [wp_steps] on the body of an emitting loop. *)
Ltac emit_body :=
  try no_raise; try lia;
  unfold step_post; frames;
  split_and?; try done; try congruence; try lia; try solve_ts;
  try (repeat case_decide; first [done|lia]).

Ltac onset_end :=
  frames; try done; try lia;
  try lazymatch goal with
  | |- onset_post _ _ _ _ =>
      unfold onset_post, set_all;
      cbn [node_status current_time active_anomalies degraded foldl];
      split_and!; [congruence|congruence|lia]
  | |- stamped _ (_ :: _) _ =>
      split; [solve_ts|]; eapply stamped_weaken; [| |done]; solve_ts
  | |- stamped _ _ _ => eapply stamped_weaken; [| |done]; solve_ts
  end.

Lemma onset_network_partition_spec Φ Ψ s :
  (∀ s', frame s s' → N < 100 → Ψ s') →
  (∀ start len msgs s',
     0 ≤ start ≤ N - 100 → 10 ≤ len ≤ 100 →
     onset_post network_partition s (seqZ start len) s' →
     Forall2 (λ n e, node_id e = n ∧ severity e = ERROR ∧ component e = NETWORK)
             (seqZ start len) msgs →
     stamped (ms s) msgs (ms s') →
     Φ (msgs, seqZ start len) s') →
  wp (_create_anomaly_branch cfg tape network_partition) Φ Ψ s.
Proof.
  intros HE HQ. unfold _create_anomaly_branch.
  wp_steps; [apply HE; [apply frame_refl|lia]|].
  eapply (wp_emit_loop (λ n m, <[n := NETWORK_DEGRADED]> m)
            (λ n e, node_id e = n ∧ severity e = ERROR ∧ component e = NETWORK)).
  - intros n s1 _. wp_steps; emit_body.
  - intros out s1 (Hst & Hreg & Hclk & HR & Hts).
    wp_steps. apply HQ; onset_end.
Qed.

Lemma onset_rack_power_failure_spec Φ Ψ s :
  (∀ s', frame s s' → N < 32 → Ψ s') →
  (∀ rack_id master msgs s',
     0 ≤ rack_id ≤ N `div` 32 - 1 →
     onset_post rack_power_failure s (seqZ (rack_id * 32) 32) s' →
     node_id master = rack_id * 32 ∧ severity master = FATAL ∧
       component master = POWER →
     Forall2 (λ n e, node_id e = n ∧ severity e = ERROR ∧ component e = POWER)
             (seqZ (rack_id * 32) 32) msgs →
     stamped (ms s) (master :: msgs) (ms s') →
     Φ (master :: msgs, seqZ (rack_id * 32) 32) s') →
  wp (_create_anomaly_branch cfg tape rack_power_failure) Φ Ψ s.
Proof.
  intros HE HQ. unfold _create_anomaly_branch. wp_steps.
  { apply HE; [apply frame_refl|]. pose proof (Z.div_lt_upper_bound N 32 1). 
    destruct (decide (N < 32)); [done|].
    assert (1 ≤ N `div` 32) by (apply Z.div_le_lower_bound; lia). lia. }
  { rewrite seqZ_cons in * by lia. done. }
  match goal with H : seqZ _ 32 = _ :: _ |- _ =>
    rewrite seqZ_cons in H by lia; injection H as <- _ end.
  eapply (wp_emit_loop (λ n m, <[n := POWERED_OFF]> m)
            (λ n e, node_id e = n ∧ severity e = ERROR ∧ component e = POWER)).
  - intros n s1 _. wp_steps; emit_body.
  - intros out s1 (Hst & Hreg & Hclk & HR & Hts).
    wp_steps. apply HQ; onset_end.
Qed.

Lemma onset_filesystem_corruption_spec Φ Ψ s :
  (∀ s', frame s s' → N < 20 → Ψ s') →
  (∀ affected msgs s',
     (5 ≤ length affected ≤ 20)%nat → Forall (λ n, 0 ≤ n < N) affected →
     onset_post filesystem_corruption s affected s' →
     Forall2 (λ n e, node_id e = n ∧ severity e = ERROR ∧ component e = FILESYSTEM)
             affected msgs →
     stamped (ms s) msgs (ms s') →
     Φ (msgs, affected) s') →
  wp (_create_anomaly_branch cfg tape filesystem_corruption) Φ Ψ s.
Proof.
  intros HE HQ. unfold _create_anomaly_branch. wp_steps.
  apply wp_sample_range.
  { intros Hk s2 Hf2. apply HE; [by eapply frame_trans|lia]. }
  intros affected s2 Hk Hin Hlen Hf2. wp_steps.
  eapply (wp_emit_loop (λ n m, <[n := FILESYSTEM_ERROR]> m)
            (λ n e, node_id e = n ∧ severity e = ERROR ∧ component e = FILESYSTEM)).
  - intros n s1 _. wp_steps; emit_body.
  - intros out s1 (Hst & Hreg & Hclk & HR & Hts).
    wp_steps. apply HQ; onset_end.
Qed.

Lemma onset_memory_errors_spec Φ Ψ s :
  (∀ s', frame s s' → N < 1 → Ψ s') →
  (∀ node count msgs s',
     0 ≤ node < N → 3 ≤ count ≤ 10 →
     onset_post memory_errors s [node] s' →
     Forall2 (λ i e, node_id e = node ∧ component e = MEMORY ∧
                     severity e = if decide (i < 2) then WARNING
                                  else if decide (i < count - 1) then ERROR
                                  else FATAL)
             (seqZ 0 count) msgs →
     stamped (ms s) msgs (ms s') →
     Φ (msgs, [node]) s') →
  wp (_create_anomaly_branch cfg tape memory_errors) Φ Ψ s.
Proof.
  intros HE HQ. unfold _create_anomaly_branch.
  apply wp_bind, wp_randint; [intros; apply HE; [apply frame_refl|lia]|].
  intros node s1 _ Hnode Hf1. cbv zeta. apply wp_bind, wp_set_status.
  apply wp_bind, wp_randint; [lia|]. intros count s2 _ Hcount Hf2. apply wp_bind.
  eapply (wp_emit_loop (λ _ m, m)
            (λ i e, node_id e = node ∧ component e = MEMORY ∧
                    severity e = if decide (i < 2) then WARNING
                                 else if decide (i < count - 1) then ERROR
                                 else FATAL)).
  - intros i s3 _. wp_steps; emit_body.
  - intros out s3 (Hst & Hreg & Hclk & HR & Hts).
    assert (node_status s3 = node_status s2) as Hst'.
    { rewrite Hst. clear. generalize (node_status s2).
      induction (seqZ 0 count); simpl; auto. }
    wp_steps. apply (HQ node count); onset_end.
Qed.

Lemma onset_overheating_spec Φ Ψ s :
  (∀ s', frame s s' → N < 32 → Ψ s') →
  (∀ start len msgs s',
     0 ≤ start ≤ N - 32 → 5 ≤ len ≤ 32 →
     onset_post overheating s (seqZ start len) s' →
     Forall2 (λ n e, node_id e = n ∧ severity e ≠ INFO ∧ component e = TEMPERATURE)
             (seqZ start len) msgs →
     stamped (ms s) msgs (ms s') →
     Φ (msgs, seqZ start len) s') →
  wp (_create_anomaly_branch cfg tape overheating) Φ Ψ s.
Proof.
  intros HE HQ. unfold _create_anomaly_branch.
  wp_steps; [apply HE; [apply frame_refl|lia]|].
  eapply (wp_emit_loop (λ n m, <[n := OVERHEATING]> m)
            (λ n e, node_id e = n ∧ severity e ≠ INFO ∧ component e = TEMPERATURE)).
  - intros n s1 _. wp_steps; emit_body.
  - intros out s1 (Hst & Hreg & Hclk & HR & Hts).
    wp_steps. apply HQ; onset_end.
Qed.

(** ** Resolution and continuation *)

Ltac resolve_end :=
  frames; try done; try lia;
  try lazymatch goal with
  | |- resolve_post _ _ _ _ =>
      unfold resolve_post, set_all;
      cbn [node_status current_time active_anomalies];
      split_and!; [congruence|congruence|lia]
  | |- stamped _ (_ :: _) _ =>
      split; [solve_ts|]; eapply stamped_weaken; [| |done]; solve_ts
  | |- stamped _ _ _ => eapply stamped_weaken; [| |done]; solve_ts
  end.

Lemma resolve_branch_spec kind affected Φ Ψ s :
  affected ≠ [] →
  (kind = memory_errors → length affected = 1%nat) →
  (∀ msgs s',
     resolve_post kind s affected s' →
     recovery_shape kind affected msgs →
     stamped (ms s) msgs (ms s') →
     Φ msgs s') →
  wp (resolve_branch cfg tape kind affected) Φ Ψ s.
Proof.
  intros Hne Hmem HQ. destruct kind; unfold resolve_branch.
  - wp_steps.
    eapply (wp_emit_loop (λ n m, <[n := OPERATIONAL]> m)
              (recovery_record network_partition)).
    + intros n s1 _. wp_steps; emit_body.
    + intros out s1 (Hst & Hreg & Hclk & HR & Hts).
      wp_steps. apply HQ; resolve_end.
  - wp_steps. subst affected.
    eapply (wp_emit_loop (λ n m, <[n := OPERATIONAL]> m)
              (recovery_record rack_power_failure)).
    + intros n s1 _. wp_steps; emit_body.
    + intros out s1 (Hst & Hreg & Hclk & HR & Hts).
      wp_steps. apply HQ; resolve_end.
      do 4 eexists. split_and!; done.
  - wp_steps.
    eapply (wp_emit_loop (λ n m, <[n := OPERATIONAL]> m)
              (recovery_record filesystem_corruption)).
    + intros n s1 _. wp_steps; emit_body.
    + intros out s1 (Hst & Hreg & Hclk & HR & Hts).
      wp_steps. apply HQ; resolve_end.
  - destruct affected as [|n [|]]; [done| |by specialize (Hmem eq_refl)].
    wp_steps; [|no_raise]. simplify_eq. apply HQ.
    + unfold resolve_post, set_all. frames. cbn [foldl].
      split_and!; [congruence|congruence|lia].
    + repeat constructor.
    + frames. split; solve_ts.
  - wp_steps.
    eapply (wp_emit_loop (λ n m, <[n := OPERATIONAL]> m)
              (recovery_record overheating)).
    + intros n s1 _. wp_steps; emit_body.
    + intros out s1 (Hst & Hreg & Hclk & HR & Hts).
      wp_steps. apply HQ; resolve_end.
Qed.

Ltac split_elem_of :=
  repeat match goal with
         | H : _ ∈ _ :: _ |- _ => apply elem_of_cons in H as [->|H]
         | H : _ ∈ [] |- _ => by apply elem_of_nil in H
         end.

Lemma ongoing_template_spec kind node Φ Ψ s :
  (∀ comp template s',
     frame s s' →
     (∀ name, has_hole name template = true → raise_cond name → False) →
     Φ (comp, ERROR, template) s') →
  wp (ongoing_template tape kind node) Φ Ψ s.
Proof.
  intros HQ. destruct kind; unfold ongoing_template; wp_steps;
    (apply HQ; [frames; split; congruence || lia|]);
    intros name Hh Hc; split_elem_of; no_raise.
Qed.

(** ** Severity model and normal logs *)

Lemma bisect_le a x hi : (bisect a x hi ≤ hi)%nat.
Proof.
  revert a. induction hi as [|hi IH]; intros [|c a]; simpl; try lia.
  destruct (Qltb x c); [lia|]. specialize (IH a). lia.
Qed.

Lemma wp_choices {A} (population : list A) weights Φ Ψ s :
  Qle_bool (List.last (accumulate 0 weights) 0%Q) 0 = false →
  population ≠ [] →
  (∀ x s', x ∈ population → frame s s' → Φ x s') →
  wp (choices tape population weights) Φ Ψ s.
Proof.
  intros Htotal Hne HQ. unfold choices. rewrite Htotal.
  apply wp_bind, wp_random. intros r s' _ Hf.
  set (i := bisect _ _ _).
  assert (i < length population)%nat as Hi.
  { subst i.
    match goal with |- (bisect ?a ?x ?h < _)%nat => pose proof (bisect_le a x h) end.
    destruct population; [done|]. simpl in *. lia. }
  apply lookup_lt_is_Some in Hi as [x Hx]. rewrite Hx.
  apply wp_ret, HQ; [|done]. by eapply list_elem_of_lookup_2.
Qed.

Lemma wp_get_severity comp n Φ Ψ s :
  (node_status s !! n = None → Ψ s) →
  (∀ sev s', frame s s' → Φ sev s') →
  wp (_get_severity cfg tape comp n) Φ Ψ s.
Proof.
  intros HE HQ. unfold _get_severity.
  apply wp_bind, wp_get_status; [done|]. intros st _.
  apply wp_bind. case_decide.
  - apply wp_ret. destruct comp;
      (apply wp_choices; [vm_compute; reflexivity|done|auto]).
  - apply wp_bind, wp_random. intros r s1 _ Hf1.
    destruct (Qltb r (error_rate cfg)); apply wp_ret; destruct comp;
      (apply wp_choices; [vm_compute; reflexivity|done|]);
      intros sev s2 _ Hf2; apply HQ; by eapply frame_trans.
Qed.

Lemma normal_log_spec Φ Ψ s :
  (∀ n, 0 ≤ n < N → is_Some (node_status s !! n)) →
  (∀ s', frame s s' → N < 10 → Ψ s') →
  (∀ e s', frame s s' → 0 ≤ node_id e < N → ms s ≤ timestamp e ≤ ms s' →
           Φ [e] s') →
  wp (normal_log cfg tape) Φ Ψ s.
Proof.
  intros Hdom HE HQ. unfold normal_log.
  apply wp_bind, wp_randint; [intros; apply HE; [apply frame_refl|lia]|].
  intros n s1 _ Hn Hf1.
  apply wp_bind, wp_choice; [done|]. intros comp s2 _ Hf2.
  apply wp_bind, wp_get_severity.
  { intros Hnone. destruct (Hdom n) as [st Hst]; [lia|]. frames. congruence. }
  intros sev s3 Hf3. cbv zeta.
  apply wp_bind, wp_choice.
  { intros Hnil. destruct comp; discriminate Hnil. }
  intros template s4 _ Hf4.
  apply wp_bind, wp_fill.
  - intros msg s5 Hf5. apply wp_bind, wp_generate_timestamp. intros s6 Hf6.
    apply wp_ret, HQ; frames; [split; congruence || lia|lia|split; solve_ts].
  - intros name s5 _ Hc Hf5. apply HE.
    + frames. split; congruence || lia.
    + destruct Hc as [[_ ?]|[_ ?]]; lia.
Qed.

(** ** The registry as a map *)

Lemma registry_get_set reg kind nodes k :
  registry_get (registry_set reg kind nodes) k =
  if decide (k = kind) then nodes else registry_get reg k.
Proof.
  induction reg as [|[k' v] reg IH]; simpl.
  - repeat case_decide; congruence.
  - repeat (case_decide; simpl); congruence.
Qed.

Lemma registry_set_key reg kind nodes k :
  k ∈ (registry_set reg kind nodes).*1 → k = kind ∨ k ∈ reg.*1.
Proof.
  induction reg as [|[k' v] reg IH]; simpl.
  - rewrite list_elem_of_singleton. auto.
  - case_decide; simpl; rewrite !elem_of_cons; [tauto|]. intros [?|?%IH]; tauto.
Qed.

Lemma registry_set_keys reg kind nodes :
  NoDup reg.*1 → NoDup (registry_set reg kind nodes).*1.
Proof.
  induction reg as [|[k' v] reg IH]; simpl; intros Hnd.
  - apply NoDup_singleton.
  - apply NoDup_cons in Hnd as [Hnotin Hnd]. case_decide; simpl.
    + by apply NoDup_cons.
    + apply NoDup_cons. split; [|by apply IH].
      intros [?|?]%registry_set_key; [congruence|done].
Qed.

Lemma registry_get_elem_of reg k v :
  NoDup reg.*1 → (k, v) ∈ reg → registry_get reg k = v.
Proof.
  induction reg as [|[k' v'] reg IH]; simpl; intros Hnd Hin.
  - by apply elem_of_nil in Hin.
  - apply NoDup_cons in Hnd as [Hnotin Hnd].
    apply elem_of_cons in Hin as [?|Hin]; [simplify_eq; by rewrite decide_True|].
    case_decide; [|by apply IH]. subst. exfalso. apply Hnotin.
    apply list_elem_of_fmap. by exists (k, v).
Qed.

Lemma registry_get_nonempty reg k :
  registry_get reg k ≠ [] → (k, registry_get reg k) ∈ reg.
Proof.
  induction reg as [|[k' v'] reg IH]; simpl; [done|].
  case_decide; [subst; left|right; auto].
Qed.

Lemma any_active_true reg :
  any_active reg = true ↔ ∃ kv, kv ∈ reg ∧ kv.2 ≠ [].
Proof.
  unfold any_active. rewrite existsb_exists. split.
  - intros (kv & Hin%list_elem_of_In & Hne). exists kv. split; [done|].
    apply negb_true_iff, bool_decide_eq_false in Hne. done.
  - intros (kv & Hin & Hne). exists kv. split; [by apply list_elem_of_In|].
    by apply negb_true_iff, bool_decide_eq_false.
Qed.

Lemma registry_get_filter reg k :
  NoDup reg.*1 →
  k ∈ (filter (λ kv, kv.2 ≠ []) reg).*1 →
  registry_get (filter (λ kv, kv.2 ≠ []) reg) k = registry_get reg k ∧
  registry_get reg k ≠ [].
Proof.
  induction reg as [|[k' v'] reg IH]; intros Hnd Hin.
  - by apply elem_of_nil in Hin.
  - apply NoDup_cons in Hnd as [Hnotin Hnd]. rewrite filter_cons in *. simpl in *.
    destruct (decide (v' ≠ [])) as [Hv|Hv]; simpl in *.
    + case_decide; [done|]. apply elem_of_cons in Hin as [?|Hin]; [congruence|].
      by apply IH.
    + assert (k ∈ reg.*1) as Hk.
      { apply list_elem_of_fmap in Hin as (kv & -> & Hkv%list_elem_of_filter).
        apply list_elem_of_fmap. exists kv. tauto. }
      case_decide; [by subst|]. by apply IH.
Qed.

Lemma filter_active_nil reg :
  filter (λ kv : AnomalyKind * list Z, kv.2 ≠ []) reg = [] → any_active reg = false.
Proof.
  intros Hnil. destruct (any_active reg) eqn:Hany; [|done].
  apply any_active_true in Hany as (kv & Hin & Hne).
  assert (kv ∈ filter (λ kv : AnomalyKind * list Z, kv.2 ≠ []) reg) as Hf
    by by apply list_elem_of_filter.
  rewrite Hnil in Hf. by apply elem_of_nil in Hf.
Qed.

Lemma continue_anomaly_spec Φ Ψ s :
  NoDup (active_anomalies s).*1 →
  (length (registry_get (active_anomalies s) memory_errors) ≤ 1)%nat →
  (any_active (active_anomalies s) = false → Φ [] s) →
  (∀ kind msgs s',
     registry_get (active_anomalies s) kind ≠ [] →
     resolve_post kind s (registry_get (active_anomalies s) kind) s' →
     recovery_shape kind (registry_get (active_anomalies s) kind) msgs →
     stamped (ms s) msgs (ms s') →
     Φ msgs s') →
  (∀ kind e s',
     frame s s' → node_id e ∈ registry_get (active_anomalies s) kind →
     severity e = ERROR → ms s ≤ timestamp e ≤ ms s' →
     Φ [e] s') →
  wp (_continue_anomaly cfg tape) Φ Ψ s.
Proof.
  intros Hnd Hmem Hnone Hres Hcont. unfold _continue_anomaly.
  apply wp_bind, wp_read_registry.
  case_decide as Hreg; [apply wp_ret, Hnone; by rewrite Hreg|]. cbv zeta.
  case_decide as Hact; [by apply wp_ret, Hnone, filter_active_nil|].
  apply wp_bind, wp_choice.
  { intros Hnil. apply fmap_nil_inv in Hnil. done. }
  intros kind s1 Hkind Hf1.
  destruct (registry_get_filter _ _ Hnd Hkind) as [Hget Hne]. rewrite Hget.
  apply wp_bind, wp_random. intros r s2 _ Hf2.
  destruct (Qltb r float_0_1).
  - apply resolve_branch_spec; [done| |].
    { intros ->. destruct (registry_get _ memory_errors) as [|? [|]];
        simpl in *; [done|done|lia]. }
    intros msgs s3 (Hst & Hr & Hclk) Hshape Hts. apply (Hres kind); [done| |done|].
    + frames. split_and!; [congruence|congruence|lia].
    + frames. eapply stamped_weaken; [| |done]; solve_ts.
  - apply wp_bind, wp_read_registry.
    assert (active_anomalies s2 = active_anomalies s) as -> by (frames; congruence).
    case_decide; [done|].
    apply wp_bind, wp_choice; [done|]. intros n s3 Hn Hf3.
    apply wp_bind, ongoing_template_spec. intros comp template s4 Hf4 Hsafe.
    cbv beta iota. apply wp_bind, wp_fill; [|intros; exfalso; eauto].
    intros msg s5 Hf5. apply wp_bind, wp_generate_timestamp. intros s6 Hf6.
    apply wp_ret, (Hcont kind); [|done|done|]; frames.
    + split; congruence || lia.
    + split; solve_ts.
Qed.

(** ** Onset, whatever the kind *)

Lemma seqZ_in_range start len lo hi :
  lo ≤ start → start + len ≤ hi → Forall (λ n, lo ≤ n < hi) (seqZ start len).
Proof. intros. apply Forall_forall. intros n ?%elem_of_seqZ. lia. Qed.

Lemma seqZ_nonempty start len : 0 < len → seqZ start len ≠ [].
Proof. intros ? Hnil%(f_equal length). rewrite length_seqZ in Hnil. simpl in *. lia. Qed.

Lemma Forall2_node_ids {A} (R : A → LogEntry → Prop) (f : A → Z) l out :
  Forall2 R l out → (∀ x e, R x e → node_id e = f x) →
  Forall (λ e, node_id e ∈ f <$> l) out.
Proof.
  intros HR Hid. induction HR as [|x e l out Hxe _ IH]; constructor.
  - rewrite (Hid _ _ Hxe). simpl. left.
  - eapply Forall_impl; [done|]. intros e' ?. simpl. by right.
Qed.

Lemma Forall2_node_id_eq (R : Z → LogEntry → Prop) l out :
  Forall2 R l out → (∀ n e, R n e → node_id e = n) →
  Forall (λ e, node_id e ∈ l) out.
Proof.
  intros HR Hid. apply (Forall2_node_ids _ id) in HR; [|done].
  by rewrite list_fmap_id in HR.
Qed.

Lemma create_anomaly_branch_spec kind Φ Ψ s :
  (∀ s', frame s s' → N < 100 → Ψ s') →
  (∀ affected msgs s',
     affected ≠ [] → Forall (λ n, 0 ≤ n < N) affected →
     (kind = memory_errors → length affected = 1%nat) →
     onset_post kind s affected s' →
     Forall (λ e, node_id e ∈ affected) msgs →
     (1 ≤ length msgs)%nat →
     stamped (ms s) msgs (ms s') →
     Φ (msgs, affected) s') →
  wp (_create_anomaly_branch cfg tape kind) Φ Ψ s.
Proof.
  intros HE HQ. destruct kind.
  - apply onset_network_partition_spec; [done|].
    intros start len msgs s' Hstart Hlen Hpost HR Hts.
    apply HQ; [|by apply seqZ_in_range; lia|done|done| | |done].
    + apply seqZ_nonempty. lia.
    + eapply Forall2_node_id_eq; [done|by intros ? ? [? _]].
    + apply Forall2_length in HR. rewrite <- HR, length_seqZ. lia.
  - apply onset_rack_power_failure_spec; [intros; apply HE; [done|lia]|].
    intros rack_id master msgs s' Hrack Hpost (Hm1 & Hm2 & Hm3) HR Hts.
    apply HQ; [| |done|done| |simpl; lia|done].
    + apply seqZ_nonempty. lia.
    + pose proof (Z.mul_div_le N 32). apply seqZ_in_range; lia.
    + constructor.
      * rewrite Hm1. apply elem_of_seqZ. lia.
      * eapply Forall2_node_id_eq; [done|by intros ? ? [? _]].
  - apply onset_filesystem_corruption_spec; [intros; apply HE; [done|lia]|].
    intros affected msgs s' Hlen Hin Hpost HR Hts.
    apply HQ; [|done|done|done| | |done].
    + intros ->. simpl in *. lia.
    + eapply Forall2_node_id_eq; [done|by intros ? ? [? _]].
    + apply Forall2_length in HR. lia.
  - apply onset_memory_errors_spec; [intros; apply HE; [done|lia]|].
    intros node count msgs s' Hnode Hcount Hpost HR Hts.
    apply HQ; [done|by constructor|done|done| | |done].
    + apply (Forall2_node_ids _ (λ _, node)) in HR; [|by intros ? ? [? _]].
      eapply Forall_impl; [done|]. simpl. intros e (i & -> & _)%list_elem_of_fmap.
      by left.
    + apply Forall2_length in HR. rewrite <- HR, length_seqZ. lia.
  - apply onset_overheating_spec; [intros; apply HE; [done|lia]|].
    intros start len msgs s' Hstart Hlen Hpost HR Hts.
    apply HQ; [|by apply seqZ_in_range; lia|done|done| | |done].
    + apply seqZ_nonempty. lia.
    + eapply Forall2_node_id_eq; [done|by intros ? ? [? _]].
    + apply Forall2_length in HR. rewrite <- HR, length_seqZ. lia.
Qed.

Lemma create_anomaly_spec Φ Ψ s :
  (∀ s', frame s s' → N < 100 → Ψ s') →
  (∀ kind affected msgs s',
     affected ≠ [] → Forall (λ n, 0 ≤ n < N) affected →
     (kind = memory_errors → length affected = 1%nat) →
     onset_post kind s affected s' →
     Forall (λ e, node_id e ∈ affected) msgs →
     (1 ≤ length msgs)%nat →
     stamped (ms s) msgs (ms s') →
     Φ (msgs, affected) s') →
  wp (_create_anomaly cfg tape) Φ Ψ s.
Proof.
  intros HE HQ. unfold _create_anomaly.
  apply wp_bind, wp_choice; [done|]. intros kind s1 _ Hf1.
  apply create_anomaly_branch_spec.
  - intros s2 Hf2. apply HE. by eapply frame_trans.
  - intros affected msgs s2 Hne Hin Hmem (Hst & Hreg & Hclk) Hids Hlen Hts.
    apply (HQ kind); try done; frames.
    + split_and!; [congruence|congruence|lia].
    + eapply stamped_weaken; [| |done]; solve_ts.
Qed.

(** ** The invariant of the generation loop *)

Lemma Inv_frame s s' : frame s s' → Inv s → Inv s'.
Proof.
  intros [Hst Hreg _ _] [Hdom Hkeys Hlive].
  split; rewrite ?Hst, ?Hreg; done.
Qed.

Lemma lookup_set_all st nodes m (k : Z) :
  set_all st nodes m !! k = if decide (k ∈ nodes) then Some st else m !! k.
Proof.
  unfold set_all. revert m. induction nodes as [|n nodes IH]; intros m; cbn [foldl].
  - case_decide as Hin; [by apply elem_of_nil in Hin|done].
  - rewrite IH. destruct (decide (k = n)) as [->|Hne].
    + rewrite lookup_insert_eq. rewrite (decide_True (P := n ∈ n :: nodes)) by left.
      by case_decide.
    + rewrite lookup_insert_ne by done.
      destruct (decide (k ∈ nodes)).
      * rewrite decide_True; [done|by right].
      * rewrite decide_False; [done|]. rewrite elem_of_cons. tauto.
Qed.

Lemma any_active_false_get reg k : any_active reg = false → registry_get reg k = [].
Proof.
  intros Hany. destruct (decide (registry_get reg k = [])) as [|Hne]; [done|].
  assert (any_active reg = true); [|congruence].
  apply any_active_true. exists (k, registry_get reg k).
  split; [by apply registry_get_nonempty|done].
Qed.

Lemma any_active_true_get reg :
  NoDup reg.*1 → any_active reg = true → ∃ k, registry_get reg k ≠ [].
Proof.
  intros Hnd ([k v] & Hin & Hne)%any_active_true. exists k.
  by rewrite (registry_get_elem_of reg k v).
Qed.

Lemma Inv_registry_range s k n :
  Inv s → n ∈ registry_get (active_anomalies s) k → 0 ≤ n < N.
Proof.
  intros [_ _ (k0 & nodes & Hget & _ & Hrng & _)]. rewrite Hget.
  case_decide; [|by intros ?%elem_of_nil].
  intros Hn. by eapply Forall_forall in Hrng.
Qed.

Lemma Inv_memory_length s :
  Inv s → (length (registry_get (active_anomalies s) memory_errors) ≤ 1)%nat.
Proof.
  intros [_ _ (k0 & nodes & Hget & _ & _ & Hmem)]. rewrite Hget.
  case_decide; [subst; auto|simpl; lia].
Qed.

Lemma Inv_onset s s' kind affected :
  Inv s → any_active (active_anomalies s) = false →
  Forall (λ n, 0 ≤ n < N) affected →
  (kind = memory_errors → length affected = 1%nat) →
  onset_post kind s affected s' → Inv s'.
Proof.
  intros [Hdom Hkeys (k0 & nodes0 & Hget & Hstat & Hrng & Hmem0)] Hany Hin Hmem
    (Hst & Hreg & _).
  assert (nodes0 = []) as ->.
  { specialize (Hget k0). rewrite decide_True in Hget by done.
    rewrite <- Hget. by apply any_active_false_get. }
  split.
  - intros n. rewrite Hst, lookup_set_all. case_decide as Hn; [|apply Hdom].
    split; [intros _|by eauto]. by eapply Forall_forall in Hin.
  - rewrite Hreg. by apply registry_set_keys.
  - exists kind, affected. split_and!; [| |done|intros ?; rewrite Hmem; done].
    + intros k. rewrite Hreg, registry_get_set.
      rewrite !(any_active_false_get _ _ Hany). done.
    + intros n st. rewrite Hst, lookup_set_all. case_decide; [congruence|].
      intros Hn%Hstat. rewrite decide_False in Hn by apply not_elem_of_nil. done.
Qed.

Lemma Inv_resolve s s' kind :
  Inv s → registry_get (active_anomalies s) kind ≠ [] →
  resolve_post kind s (registry_get (active_anomalies s) kind) s' →
  Inv s' ∧ any_active (active_anomalies s') = false.
Proof.
  intros [Hdom Hkeys (k0 & nodes0 & Hget & Hstat & Hrng & Hmem0)] Hne
    (Hst & Hreg & _).
  rewrite Hget in Hne, Hst. destruct (decide (kind = k0)) as [->|]; [|done].
  assert (∀ k, registry_get (active_anomalies s') k = []) as Hempty.
  { intros k. rewrite Hreg, registry_get_set, Hget. by repeat case_decide. }
  assert (NoDup (active_anomalies s').*1) as Hkeys'
    by (rewrite Hreg; by apply registry_set_keys).
  split.
  - split; [|done|].
    + intros n. rewrite Hst, lookup_set_all, <- Hdom. case_decide as Hn; [|done].
      split; [intros _|by eauto]. apply Hdom. by eapply Forall_forall in Hrng.
    + exists k0, []. split_and!; [|..|done|simpl; lia].
      * intros k. rewrite Hempty. by case_decide.
      * intros n st. rewrite Hst, lookup_set_all.
        rewrite (decide_False (P := n ∈ [])) by apply not_elem_of_nil.
        case_decide as Hn; [congruence|]. intros ?%Hstat. by rewrite decide_False in *.
  - destruct (any_active _) eqn:Hany; [|done].
    apply any_active_true_get in Hany as [k Hk]; [|done]. by rewrite Hempty in Hk.
Qed.

Lemma recovery_shape_ids kind affected msgs :
  affected ≠ [] → recovery_shape kind affected msgs →
  Forall (λ e, node_id e ∈ affected) msgs ∧ (1 ≤ length msgs)%nat.
Proof.
  assert (∀ l out, l ≠ [] → Forall2 (recovery_record kind) l out →
            Forall (λ e, node_id e ∈ l) out ∧ (1 ≤ length out)%nat) as Haux.
  { intros l out Hl HR. split.
    - eapply Forall2_node_id_eq; [done|by intros ? ? [? _]].
    - apply Forall2_length in HR. destruct l; [done|]. simpl in *. lia. }
  intros Hne. destruct kind; simpl; try apply Haux; try done.
  intros (master & rest & first & others & -> & -> & Hm & _ & _ & HR).
  split; [|simpl; lia]. constructor; [rewrite Hm; left|by apply Haux].
Qed.

(** ** One tick *)

Lemma normal_log_tick s0 s :
  Inv s0 → frame s0 s →
  wp (normal_log cfg tape) (tick_post s0) tick_exc s.
Proof.
  intros HInv Hf. assert (Inv s) as [Hdom _ _] by by eapply Inv_frame.
  apply normal_log_spec.
  - intros n Hn. by apply Hdom.
  - intros s' Hf' HN. split; [|lia]. eapply Inv_frame; [|done]. by eapply frame_trans.
  - intros e s' Hf' Hid Hts. split_and!; [|by apply Forall_singleton| |simpl; lia].
    + eapply Inv_frame; [|done]. by eapply frame_trans.
    + pose proof (ms_mono _ _ (frame_clock _ _ Hf)). simpl. lia.
Qed.

Lemma continue_anomaly_tick s0 s :
  Inv s0 → frame s0 s → any_active (active_anomalies s) = true →
  wp (_continue_anomaly cfg tape) (tick_post s0) tick_exc s.
Proof.
  intros HInv0 Hf Hany. assert (Inv s) as HInv by by eapply Inv_frame.
  apply continue_anomaly_spec.
  - apply HInv.
  - by apply Inv_memory_length.
  - congruence.
  - intros kind msgs s' Hne Hpost Hshape Hts.
    destruct (Inv_resolve _ _ _ HInv Hne Hpost) as [HInv' _].
    destruct (recovery_shape_ids _ _ _ Hne Hshape) as [Hids Hlen].
    split_and!; [done| | |done].
    + eapply Forall_impl; [done|]. intros e He. by apply (Inv_registry_range s kind).
    + frames. eapply stamped_weaken; [| |done]; solve_ts.
  - intros kind e s' Hf' Hid Hsev Hts. split_and!; [| | |simpl; lia].
    + by eapply Inv_frame.
    + apply Forall_singleton. by apply (Inv_registry_range s kind).
    + pose proof (ms_mono _ _ (frame_clock _ _ Hf)). simpl. lia.
Qed.

Lemma tick_spec s : Inv s → wp (tick cfg tape) (tick_post s) tick_exc s.
Proof.
  intros HInv. unfold tick.
  apply wp_bind, wp_random. intros r s1 _ Hf1.
  assert (Inv s1) as HInv1 by by eapply Inv_frame.
  apply wp_bind, wp_read_registry.
  destruct (Qltb r (anomaly_probability cfg) && negb (any_active (active_anomalies s1)))
    eqn:Hgo.
  - apply andb_true_iff in Hgo as [_ Hq%negb_true_iff].
    apply wp_bind, create_anomaly_spec.
    + intros s2 Hf2 HN. split; [by eapply Inv_frame|done].
    + intros kind affected msgs s2 Hne Hin Hmem Hpost Hids Hlen Hts.
      cbv beta iota. apply wp_ret. split_and!; [by eapply Inv_onset| | |done].
      * eapply Forall_impl; [done|]. intros e He. by eapply Forall_forall in Hin.
      * frames. eapply stamped_weaken; [| |done]; solve_ts.
  - apply wp_bind, wp_read_registry. apply wp_bind.
    destruct (any_active (active_anomalies s1)) eqn:Hany.
    + apply wp_bind, wp_random. intros r' s2 _ Hf2. apply wp_ret.
      assert (frame s s2) as Hf by by eapply frame_trans.
      destruct (Qltb r' float_0_3).
      * apply continue_anomaly_tick; [done..|]. frames. congruence.
      * by apply normal_log_tick.
    + apply wp_ret. by apply normal_log_tick.
Qed.

Lemma Qltb_zero r p : (0 <= r)%Q → (p == 0)%Q → Qltb r p = false.
Proof.
  intros Hr Hp. unfold Qltb. apply negb_false_iff, Qle_bool_iff.
  by rewrite Hp.
Qed.

(** With [anomaly_probability = 0] and no active kind, a tick is one normal
    log. *)
Lemma tick_quiet_spec s :
  (anomaly_probability cfg == 0)%Q → Inv s → quiet s →
  wp (tick cfg tape)
     (λ msgs s', Inv s' ∧ quiet s' ∧ length msgs = 1%nat)
     (λ s', Inv s' ∧ quiet s' ∧ N < 10) s.
Proof.
  intros Hp HInv Hq. unfold tick.
  apply wp_bind, wp_random. intros r s1 Hr Hf1.
  apply wp_bind, wp_read_registry. rewrite (Qltb_zero r) by done. simpl.
  apply wp_bind, wp_read_registry.
  assert (active_anomalies s1 = active_anomalies s) as Hreg by apply Hf1.
  unfold quiet in *. rewrite Hreg, Hq. apply wp_bind, wp_ret.
  assert (Inv s1) as [Hdom _ _] by by eapply Inv_frame.
  apply normal_log_spec.
  - intros n Hn. by apply Hdom.
  - intros s2 Hf2 HN. assert (frame s s2) as Hf by by eapply frame_trans.
    split_and!; [by eapply Inv_frame| |done]. by rewrite (frame_registry _ _ Hf).
  - intros e s2 Hf2 _ _. assert (frame s s2) as Hf by by eapply frame_trans.
    split_and!; [by eapply Inv_frame| |done]. by rewrite (frame_registry _ _ Hf).
Qed.

(** ** The whole loop *)

Lemma repeat_tick_spec n s :
  Inv s → wp (repeat_extend n (tick cfg tape)) (run_post n s) tick_exc s.
Proof.
  revert s. induction n as [|n IH]; intros s HInv; simpl.
  - apply wp_ret. split_and!; [done|constructor|simpl; lia|simpl; lia].
  - apply wp_bind. eapply wp_mono; [by apply tick_spec| |done].
    intros msgs s1 (HInv1 & Hids1 & Hts1 & Hlen1); simpl.
    apply wp_bind. eapply wp_mono; [by apply IH| |done].
    intros logs s2 (HInv2 & Hids2 & Hts2 & Hlen2); simpl.
    apply wp_ret. split_and!; [done|by apply Forall_app|by eapply stamped_app|].
    rewrite length_app. lia.
Qed.

Lemma repeat_tick_quiet_spec n s :
  (anomaly_probability cfg == 0)%Q → Inv s → quiet s →
  wp (repeat_extend n (tick cfg tape))
     (λ logs s', Inv s' ∧ quiet s' ∧ length logs = n)
     (λ s', Inv s' ∧ quiet s' ∧ N < 10) s.
Proof.
  intros Hp. revert s. induction n as [|n IH]; intros s HInv Hq; simpl.
  - by apply wp_ret.
  - apply wp_bind. eapply wp_mono; [by apply tick_quiet_spec| |done].
    intros msgs s1 (HInv1 & Hq1 & Hlen1); simpl.
    apply wp_bind. eapply wp_mono; [by apply IH| |done].
    intros logs s2 (HInv2 & Hq2 & Hlen2); simpl.
    apply wp_ret. split_and!; [done..|]. rewrite length_app. lia.
Qed.

Lemma Inv_init now : Inv (init cfg now) ∧ quiet (init cfg now).
Proof.
  assert (∀ n st, node_status (init cfg now) !! n = Some st ↔
                  0 ≤ n < N ∧ st = OPERATIONAL) as Hlookup.
  { intros n st. unfold init; simpl. rewrite <- elem_of_list_to_map.
    - rewrite list_elem_of_fmap. setoid_rewrite elem_of_seqZ. split.
      + intros (m & [= -> ->] & Hm). split; [lia|done].
      + intros [Hn ->]. exists n. split; [done|lia].
    - rewrite <- list_fmap_compose. simpl. rewrite list_fmap_id. apply NoDup_seqZ. }
  split; [|done]. split.
  - intros n. split.
    + intros [st Hst%Hlookup]. tauto.
    + intros Hn. exists OPERATIONAL. by apply Hlookup.
  - simpl. constructor.
  - exists network_partition, []. split_and!; [|..|done|done].
    + intros k. simpl. by case_decide.
    + intros n st [_ ->]%Hlookup. by rewrite decide_False by apply not_elem_of_nil.
Qed.

(** ** Which branch a call takes *)

Lemma wp_elim_ok {A} (m : M A) Φ Ψ s a s' : wp m Φ Ψ s → m s = Ok a s' → Φ a s'.
Proof. unfold wp. intros H Heq. by rewrite Heq in H. Qed.

Lemma choice_frame {A} (seq : list A) s x s' :
  choice tape seq s = Ok x s' → frame s s' ∧ x ∈ seq.
Proof.
  apply (wp_elim_ok _ (λ x s', frame s s' ∧ x ∈ seq) (λ _, True)).
  apply wp_choice; auto.
Qed.

Lemma random_frame s r s' : random tape s = Ok r s' → frame s s'.
Proof.
  apply (wp_elim_ok _ (λ _ s', frame s s') (λ _, True)).
  apply wp_random; auto.
Qed.

Lemma create_anomaly_eq s kind s1 :
  choice tape anomaly_kinds s = Ok kind s1 →
  _create_anomaly cfg tape s = _create_anomaly_branch cfg tape kind s1.
Proof. intros H. unfold _create_anomaly, mbind, M_bind. by rewrite H. Qed.

Lemma continue_anomaly_resolves s kind s1 r s2 :
  choice tape (filter (λ kv, kv.2 ≠ []) (active_anomalies s)).*1 s = Ok kind s1 →
  random tape s1 = Ok r s2 → Qltb r float_0_1 = true →
  _continue_anomaly cfg tape s =
    resolve_branch cfg tape kind
      (registry_get (filter (λ kv, kv.2 ≠ []) (active_anomalies s)) kind) s2.
Proof.
  intros Hc Hr Hlt.
  assert (filter (λ kv : AnomalyKind * list Z, kv.2 ≠ []) (active_anomalies s) ≠ [])
    as Hne by (intros Hnil; rewrite Hnil in Hc; discriminate Hc).
  unfold _continue_anomaly, mbind, M_bind, read_registry.
  case_decide as Hreg; [by rewrite Hreg in Hne|].
  case_decide; [done|]. by rewrite Hc, Hr, Hlt.
Qed.

Lemma continue_anomaly_quiet s : quiet s → _continue_anomaly cfg tape s = Ok [] s.
Proof.
  intros Hq. unfold _continue_anomaly, mbind, M_bind, read_registry.
  case_decide; [done|]. case_decide as Hne; [done|]. exfalso.
  destruct (filter _ _) as [|kv rest] eqn:Hf; [done|].
  assert (kv ∈ filter (λ kv : AnomalyKind * list Z, kv.2 ≠ []) (active_anomalies s))
    as [Hkv Hin]%list_elem_of_filter by (rewrite Hf; left).
  unfold quiet in Hq. assert (any_active (active_anomalies s) = true); [|congruence].
  apply any_active_true. eauto.
Qed.

(** * Further lemmas *)

Lemma wp_always {A} (m : M A) (Φ : A → Sim → Prop) (Ψ : Sim → Prop) s :
  (∀ a s', Φ a s') → (∀ s', Ψ s') → wp m Φ Ψ s.
Proof. intros HQ HE. unfold wp. destruct (m s); auto. Qed.

Lemma wp_both {A} (m : M A) Φ1 Φ2 Ψ1 Ψ2 s :
  wp m Φ1 Ψ1 s → wp m Φ2 Ψ2 s →
  wp m (λ a s', Φ1 a s' ∧ Φ2 a s') (λ s', Ψ1 s' ∧ Ψ2 s') s.
Proof. unfold wp. destruct (m s); auto. Qed.

Lemma stamped_ends lo msgs hi : stamped lo msgs hi → lo ≤ hi.
Proof.
  revert lo. induction msgs as [|e rest IH]; simpl; intros lo; [done|].
  intros [? ?%IH]. lia.
Qed.

Lemma stamped_upper lo msgs hi e :
  stamped lo msgs hi → e ∈ msgs → timestamp e ≤ hi.
Proof.
  revert lo. induction msgs as [|e' rest IH]; simpl; intros lo H Hin.
  - by apply elem_of_nil in Hin.
  - destruct H as [Hlo H]. apply elem_of_cons in Hin as [->|Hin].
    + by apply stamped_ends in H.
    + by eapply IH.
Qed.

(** ** Draws that touch nothing else *)

Lemma draws_only_refl s : draws_only s s.
Proof. split; auto. Qed.

Lemma draws_only_trans s1 s2 s3 :
  draws_only s1 s2 → draws_only s2 s3 → draws_only s1 s3.
Proof. intros [] []; split; try congruence; lia. Qed.

Lemma draws_only_frame s s' : draws_only s s' → frame s s'.
Proof. intros []; split; auto with lia. Qed.

Lemma wp_randint_only a b Φ Ψ s :
  (b < a → Ψ s) →
  (∀ v s', a ≤ v ≤ b → draws_only s s' → Φ v s') →
  wp (randint tape a b) Φ Ψ s.
Proof.
  intros HE HQ. unfold randint. case_decide; [by apply wp_raise, HE|].
  apply HQ; [|split; simpl; auto with lia].
  pose proof (Z.mod_pos_bound (tape (rng_pos s)) (b - a + 1)). lia.
Qed.

Lemma wp_choice_only {A} (seq : list A) Φ Ψ s :
  (seq = [] → Ψ s) →
  (∀ x s', x ∈ seq → draws_only s s' → Φ x s') →
  wp (choice tape seq) Φ Ψ s.
Proof.
  intros HE HQ. destruct seq as [|x seq]; [by apply wp_raise, HE|].
  apply HQ; [|split; simpl; auto with lia].
  apply list_elem_of_In, nth_In.
  pose proof (Z.mod_pos_bound (tape (rng_pos s)) (Z.of_nat (length (x :: seq)))).
  simpl in *. lia.
Qed.

Lemma wp_uniform_only a b Φ Ψ s :
  (∀ r s', draws_only s s' → Φ r s') → wp (uniform tape a b) Φ Ψ s.
Proof. intros HQ. apply HQ. split; simpl; auto with lia. Qed.

(** ** The placeholder resolver, more closely *)

Lemma has_hole_replace_iff name name0 v msg :
  has_hole name (replace_hole name0 v msg) = true ↔
  has_hole name msg = true ∧ name ≠ name0.
Proof.
  unfold has_hole, replace_hole. rewrite !bool_decide_eq_true, list_elem_of_fmap.
  split.
  - intros (tok & Heq & Hin). case_decide; [done|]. subst. split; [done|congruence].
  - intros [Hin Hne]. exists (Hole name). split; [|done].
    rewrite decide_False; [done|congruence].
Qed.

Lemma has_hole_lits name msg : Forall is_lit msg → has_hole name msg = false.
Proof.
  intros Hlit. apply bool_decide_eq_false. intros Hin.
  rewrite Forall_forall in Hlit. by apply Hlit in Hin.
Qed.

Lemma no_hole_lits msg : (∀ name, has_hole name msg = false) → Forall is_lit msg.
Proof.
  intros Hno. apply Forall_forall. intros [text|name] Hin; [done|].
  specialize (Hno name). by apply bool_decide_eq_false in Hno.
Qed.

Lemma has_hole_holes name msg : has_hole name msg = true ↔ name ∈ holes msg.
Proof.
  unfold has_hole, holes. rewrite bool_decide_eq_true, list_elem_of_omap. split.
  - intros Hin. by exists (Hole name).
  - intros ([text|name'] & Hin & Heq); [done|]. by simplify_eq.
Qed.

Lemma placeholder_rules_names n :
  (placeholder_rules cfg tape n).*1 = placeholder_names.
Proof. reflexivity. Qed.

Lemma fill_all_lits rules msg s : Forall is_lit msg → fill_all rules msg s = Ok msg s.
Proof.
  intros Hlit. induction rules as [|[name gen] rules IH]; simpl; [done|].
  unfold fill_if. rewrite has_hole_lits by done. apply IH.
Qed.

Lemma fill_all_holes rules msg s :
  wp (fill_all rules msg)
     (λ msg' _, ∀ name, has_hole name msg' = true ↔
                        has_hole name msg = true ∧ name ∉ rules.*1)
     (λ _, True) s.
Proof.
  revert msg s. induction rules as [|[name0 gen] rules IH]; intros msg s.
  - apply wp_ret. intros name. split; [|tauto]. intros ?. split; [done|].
    apply not_elem_of_nil.
  - assert (∀ name, name ∉ ((name0, gen) :: rules).*1 ↔
                    name ≠ name0 ∧ name ∉ rules.*1) as Hcons
      by (intros; apply not_elem_of_cons).
    cbn [fill_all]. apply wp_bind. unfold fill_if.
    destruct (has_hole name0 msg) eqn:Hh.
    + apply wp_bind, wp_always; [|done]. intros v s1. apply wp_ret.
      eapply wp_mono; [apply IH| |done]. intros msg' s2 Hmsg' name.
      specialize (Hmsg' name). specialize (Hcons name).
      pose proof (has_hole_replace_iff name name0 v msg). tauto.
    + apply wp_ret. eapply wp_mono; [apply IH| |done].
      intros msg' s2 Hmsg' name. specialize (Hmsg' name). specialize (Hcons name).
      assert (has_hole name msg = true → name ≠ name0) by congruence. tauto.
Qed.

Lemma placeholder_rules_draws_only n :
  Forall (λ rule : string * M string,
            rule.1 ≠ "timestamp"%string →
            ∀ Φ Ψ s, (∀ v s', draws_only s s' → Φ v s') → Ψ s → wp rule.2 Φ Ψ s)
         (placeholder_rules cfg tape n).
Proof.
  unfold placeholder_rules.
  repeat (apply Forall_cons; split);
    [intros Hne Φ Ψ s HQ HE; cbn [fst snd] in *;
     try lazymatch goal with
       | |- wp (mret _) _ _ _ => apply wp_ret, HQ, draws_only_refl
       | |- wp (_ <$> randint _ _ _) _ _ _ =>
           apply wp_fmap, wp_randint_only; [done|intros; by apply HQ]
       | |- wp (_ <$> choice _ _) _ _ _ =>
           apply wp_fmap, wp_choice_only; [done|intros; by apply HQ]
       | |- wp (choice _ _) _ _ _ =>
           apply wp_choice_only; [done|intros; by apply HQ]
       | |- wp (_ <$> uniform _ _ _) _ _ _ =>
           apply wp_fmap, wp_uniform_only; intros; by apply HQ
       | |- wp (_ <$> _generate_timestamp _) _ _ _ => done
       end..
    |by apply Forall_nil].
  apply wp_bind, wp_randint_only; [done|]. intros start s1 _ Hd1.
  apply wp_bind, wp_randint_only; [lia|]. intros len s2 _ Hd2.
  apply wp_ret, HQ. by eapply draws_only_trans.
Qed.

Lemma fill_all_draws_only rules msg s :
  Forall (λ rule : string * M string,
            rule.1 ≠ "timestamp"%string →
            ∀ Φ Ψ s, (∀ v s', draws_only s s' → Φ v s') → Ψ s → wp rule.2 Φ Ψ s)
         rules →
  has_hole "timestamp" msg = false →
  wp (fill_all rules msg) (λ _ s', draws_only s s') (λ s', draws_only s s') s.
Proof.
  intros Hrules. revert msg s.
  induction Hrules as [|[name gen] rules Hgen _ IH]; intros msg s Hts; simpl.
  - apply wp_ret, draws_only_refl.
  - apply wp_bind. unfold fill_if. destruct (has_hole name msg) eqn:Hh.
    + assert (name ≠ "timestamp"%string) as Hne by (intros ->; congruence).
      apply wp_bind, (Hgen Hne); [|apply draws_only_refl].
      intros v s1 Hd1. apply wp_ret.
      eapply wp_mono; [apply IH| |]; simpl.
      * destruct (has_hole "timestamp" (replace_hole name v msg)) eqn:Hr; [|done].
        apply has_hole_replace in Hr. congruence.
      * intros _ s2 Hd2. by eapply draws_only_trans.
      * intros s2 Hd2. by eapply draws_only_trans.
    + apply wp_ret. by apply IH.
Qed.

(** ** Sampling without replacement *)

Lemma wp_sample_from_NoDup pool k s :
  NoDup pool →
  wp (sample_from tape pool k) (λ l _, NoDup l ∧ l ⊆ pool) (λ _, True) s.
Proof.
  revert pool s. induction k as [|k IH]; intros pool s Hnd; simpl.
  - apply wp_ret. split; [apply NoDup_nil_2|set_solver].
  - apply wp_bind, wp_choice; [done|]. intros x s1 Hx _.
    destruct (remove_NoDup_length x pool Hnd Hx) as [Hnd' _].
    apply wp_bind. eapply wp_mono; [by apply IH| |done].
    intros l s2 [Hl Hsub]; simpl. apply wp_ret. split.
    + apply NoDup_cons. split; [|done].
      intros Hin%Hsub%list_elem_of_In. by apply remove_In in Hin.
    + intros y [->|Hy%Hsub%list_elem_of_In%in_remove]%elem_of_cons; [done|].
      apply list_elem_of_In. tauto.
Qed.

Lemma onset_filesystem_corruption_NoDup s :
  wp (_create_anomaly_branch cfg tape filesystem_corruption)
     (λ r _, NoDup r.2) (λ _, True) s.
Proof.
  unfold _create_anomaly_branch.
  apply wp_bind, wp_randint; [done|]. intros count s1 _ _ _.
  apply wp_bind. unfold sample_range. case_decide; [|done].
  eapply wp_mono; [apply wp_sample_from_NoDup, NoDup_seqZ| |done].
  intros affected s2 [Hnd _]. cbv beta.
  apply wp_bind, wp_choice; [done|]. intros fs_name s3 _ _. cbv zeta.
  apply wp_bind, wp_always; [|done]. intros msgs s4.
  apply wp_bind, wp_registry_extend, wp_ret. done.
Qed.

(** ** The clock, more closely *)

Lemma round_half_even_le q n : (q <= inject_Z n)%Q → round_half_even q ≤ n.
Proof.
  unfold Qle, round_half_even; simpl. intros Hq.
  pose proof (Z.div_mod (Qnum q) (Z.pos (Qden q)) ltac:(lia)) as Hdm.
  pose proof (Z.mod_pos_bound (Qnum q) (Z.pos (Qden q)) ltac:(lia)) as Hmod.
  repeat case_decide; [nia|nia|]. destruct (Z.even _); nia.
Qed.

Lemma generate_timestamp_exact s :
  ∃ us, 0 ≤ us ≤ 5000000 ∧
        _generate_timestamp tape s =
          Ok (strftime_ms (current_time s + us))
             (mkSim (node_status s) (current_time s + us) (active_anomalies s)
                    (S (rng_pos s))).
Proof.
  set (r := (tape (rng_pos s) `mod` 9007199254740992 # 9007199254740992)).
  exists (timedelta_seconds (r * 5)). split; [|reflexivity].
  pose proof (Z.mod_pos_bound (tape (rng_pos s)) 9007199254740992 ltac:(lia)).
  split.
  - apply round_half_even_nonneg. repeat apply Qmult_le_0_compat; try done.
    unfold Qle; simpl. lia.
  - apply round_half_even_le. unfold Qle; simpl. lia.
Qed.

(** ** The severity model, more closely *)

Lemma wp_random_exact Φ Ψ s :
  Φ (tape (rng_pos s) `mod` 9007199254740992 # 9007199254740992) (after_draws 1 s) →
  wp (random tape) Φ Ψ s.
Proof. auto. Qed.

Lemma wp_choices_exact {A} (population : list A) weights Φ Ψ s :
  Qle_bool (List.last (accumulate 0 weights) 0%Q) 0 = false →
  population ≠ [] →
  (∀ x, x ∈ population → Φ x (after_draws 1 s)) →
  wp (choices tape population weights) Φ Ψ s.
Proof.
  intros Htotal Hne HQ. unfold choices. rewrite Htotal.
  apply wp_bind, wp_random_exact.
  set (i := bisect _ _ _).
  assert (i < length population)%nat as Hi.
  { subst i.
    match goal with |- (bisect ?a ?x ?h < _)%nat => pose proof (bisect_le a x h) end.
    destruct population; [done|]. simpl in *. lia. }
  apply lookup_lt_is_Some in Hi as [x Hx]. rewrite Hx.
  apply wp_ret, HQ. by eapply list_elem_of_lookup_2.
Qed.

Lemma get_severity_missing comp n s :
  node_status s !! n = None →
  _get_severity cfg tape comp n s = Raise KeyError s.
Proof.
  intros Hnone. unfold _get_severity, mbind, M_bind, get_status. by rewrite Hnone.
Qed.

Lemma get_severity_present comp n st s :
  node_status s !! n = Some st →
  ∃ sev, _get_severity cfg tape comp n s =
           Ok sev (after_draws (if decide (st = OPERATIONAL) then 2 else 1) s).
Proof.
  intros Hst.
  destruct (wp_inv_ok (_get_severity cfg tape comp n)
    (λ _ s', s' = after_draws (if decide (st = OPERATIONAL) then 2 else 1) s) s)
    as (sev & s' & Heq & ->); [|by exists sev].
  unfold _get_severity. apply wp_bind, wp_get_status; [congruence|].
  intros st' Hst'. assert (st' = st) as -> by congruence.
  apply wp_bind. case_decide as Hop.
  - rewrite decide_False by done. apply wp_ret. destruct comp;
      (apply wp_choices_exact; [vm_compute; reflexivity|done|done]).
  - assert (st = OPERATIONAL) as -> by (by destruct (decide (st = OPERATIONAL))).
    rewrite decide_True by done. apply wp_bind, wp_random_exact.
    destruct (Qltb _ (error_rate cfg)); apply wp_ret; destruct comp;
      (apply wp_choices_exact; [vm_compute; reflexivity|done|done]).
Qed.

(** ** The follow-up record *)

Lemma ongoing_template_component kind node Φ Ψ s :
  (∀ template s',
     frame s s' →
     (∀ name, has_hole name template = true → raise_cond name → False) →
     Φ (recovery_component kind, ERROR, template) s') →
  wp (ongoing_template tape kind node) Φ Ψ s.
Proof.
  intros HQ. destruct kind; unfold ongoing_template; wp_steps;
    (apply HQ; [frames; split; congruence || lia|]);
    intros name Hh Hc; split_elem_of; no_raise.
Qed.

Lemma continue_anomaly_continues s kind s1 r s2 :
  choice tape (filter (λ kv, kv.2 ≠ []) (active_anomalies s)).*1 s = Ok kind s1 →
  random tape s1 = Ok r s2 → Qltb r float_0_1 = false →
  _continue_anomaly cfg tape s =
    (reg ← read_registry;
     let nodes := registry_get reg kind in
     if decide (nodes = []) then mret []
     else
       node_id ← choice tape nodes;
       '(component, severity, template) ← ongoing_template tape kind node_id;
       message ← _fill_template_placeholders cfg tape template node_id;
       timestamp ← _generate_timestamp tape;
       mret [_format_log_entry timestamp node_id component severity message]) s2.
Proof.
  intros Hc Hr Hlt.
  assert (filter (λ kv : AnomalyKind * list Z, kv.2 ≠ []) (active_anomalies s) ≠ [])
    as Hne by (intros Hnil; rewrite Hnil in Hc; discriminate Hc).
  unfold _continue_anomaly at 1. unfold mbind at 1, M_bind at 1, read_registry at 1.
  case_decide as Hreg; [by rewrite Hreg in Hne|]. cbv zeta.
  case_decide; [done|]. unfold mbind at 1, M_bind at 1. rewrite Hc.
  unfold mbind at 1, M_bind at 1. rewrite Hr, Hlt. done.
Qed.

Lemma continue_anomaly_continuation s kind :
  NoDup (active_anomalies s).*1 →
  takes_continuation_branch tape s kind →
  ∃ e s',
    _continue_anomaly cfg tape s = Ok [e] s' ∧
    node_id e ∈ registry_get (active_anomalies s) kind ∧
    severity e = ERROR ∧ component e = recovery_component kind ∧
    unchanged s s' ∧ ms s ≤ timestamp e ∧ timestamp e = ms s'.
Proof.
  intros Hnd (s1 & r & s2 & Hc & Hrand & Hlt).
  rewrite (continue_anomaly_continues _ _ _ _ _ Hc Hrand Hlt).
  apply choice_frame in Hc as [Hf1 Hkind]. apply random_frame in Hrand as Hf2.
  destruct (registry_get_filter _ _ Hnd Hkind) as [_ Hne].
  assert (frame s s2) as Hf by by eapply frame_trans.
  destruct (wp_inv_ok
    (reg ← read_registry;
     let nodes := registry_get reg kind in
     if decide (nodes = []) then mret []
     else
       node_id ← choice tape nodes;
       '(component, severity, template) ← ongoing_template tape kind node_id;
       message ← _fill_template_placeholders cfg tape template node_id;
       timestamp ← _generate_timestamp tape;
       mret [_format_log_entry timestamp node_id component severity message])
    (λ msgs s', ∃ e, msgs = [e] ∧
       node_id e ∈ registry_get (active_anomalies s) kind ∧
       severity e = ERROR ∧ component e = recovery_component kind ∧
       unchanged s s' ∧ ms s ≤ timestamp e ∧ timestamp e = ms s') s2)
    as (msgs & s' & Heq & e & -> & H); [|by exists e, s'].
  apply wp_bind, wp_read_registry. cbv zeta.
  rewrite (frame_registry _ _ Hf). case_decide; [done|].
  apply wp_bind, wp_choice; [done|]. intros n s3 Hn Hf3.
  apply wp_bind, ongoing_template_component. intros template s4 Hf4 Hsafe.
  cbv beta iota. apply wp_bind, wp_fill; [|intros; exfalso; eauto].
  intros msg s5 Hf5. apply wp_bind, wp_generate_timestamp. intros s6 Hf6.
  apply wp_ret. eexists. split; [done|]. unfold unchanged. frames.
  split_and!; try done; try congruence. solve_ts.
Qed.

(** ** The life cycle of an anomaly *)

Lemma Inv_quiet_operational s :
  Inv s → quiet s →
  (∀ n st, node_status s !! n = Some st → st = OPERATIONAL) ∧
  (∀ k, registry_get (active_anomalies s) k = []).
Proof.
  intros [_ _ (k0 & nodes & Hget & Hstat & _)] Hq.
  assert (∀ k, registry_get (active_anomalies s) k = []) as Hempty
    by (intros; by apply any_active_false_get).
  split; [|done]. intros n st Hst%Hstat.
  specialize (Hget k0). rewrite decide_True, Hempty in Hget by done. subst nodes.
  by rewrite decide_False in Hst by apply not_elem_of_nil.
Qed.

Lemma tick_lifecycle_spec s :
  Inv s →
  wp (tick cfg tape)
     (λ _ s',
        unchanged s s' ∨
        (quiet s ∧ ∃ kind affected, affected ≠ [] ∧ onset_post kind s affected s') ∨
        (∃ kind, registry_get (active_anomalies s) kind ≠ [] ∧
                 resolve_post kind s (registry_get (active_anomalies s) kind) s'))
     (λ s', unchanged s s' ∧ N < 100) s.
Proof.
  intros HInv. unfold tick.
  apply wp_bind, wp_random. intros r s1 _ Hf1.
  assert (Inv s1) as HInv1 by by eapply Inv_frame.
  assert (∀ s', frame s1 s' → unchanged s s') as Hun.
  { intros s' Hf'. unfold unchanged. frames. split; congruence. }
  assert (∀ s0, frame s1 s0 →
          wp (normal_log cfg tape)
            (λ _ s', unchanged s s' ∨
               (quiet s ∧ ∃ kind affected, affected ≠ [] ∧ onset_post kind s affected s') ∨
               (∃ kind, registry_get (active_anomalies s) kind ≠ [] ∧
                  resolve_post kind s (registry_get (active_anomalies s) kind) s'))
            (λ s', unchanged s s' ∧ N < 100) s0) as Hnormal.
  { intros s0 Hf0. destruct HInv1 as [Hdom _ _]. apply normal_log_spec.
    - intros n Hn. rewrite (frame_status _ _ Hf0). by apply Hdom.
    - intros s' Hf' HN. split; [|lia]. apply Hun. by eapply frame_trans.
    - intros e s' Hf' _ _. left. apply Hun. by eapply frame_trans. }
  apply wp_bind, wp_read_registry.
  destruct (Qltb r (anomaly_probability cfg) && negb (any_active (active_anomalies s1)))
    eqn:Hgo.
  - apply andb_true_iff in Hgo as [_ Hq%negb_true_iff].
    apply wp_bind, create_anomaly_spec.
    + intros s2 Hf2 HN. split; [auto|done].
    + intros kind affected msgs s2 Hne Hin Hmem (Hst & Hreg & Hclk) _ _ _.
      cbv beta iota. apply wp_ret. right. left. split.
      * unfold quiet. by rewrite <- (frame_registry _ _ Hf1).
      * exists kind, affected. split; [done|]. frames.
        split_and!; [congruence|congruence|lia].
  - apply wp_bind, wp_read_registry. apply wp_bind.
    destruct (any_active (active_anomalies s1)) eqn:Hany;
      [|apply wp_ret, Hnormal, frame_refl].
    apply wp_bind, wp_random. intros r' s2 _ Hf2. apply wp_ret.
    assert (frame s s2) as Hf by by eapply frame_trans.
    assert (active_anomalies s2 = active_anomalies s) as Hreg2 by apply Hf.
    destruct (Qltb r' float_0_3).
    + apply continue_anomaly_spec.
      * rewrite Hreg2. apply HInv.
      * rewrite Hreg2. by apply Inv_memory_length.
      * intros Hq. rewrite (frame_registry _ _ Hf2) in Hq. congruence.
      * intros kind msgs s3 Hne (Hst & Hreg & Hclk) _ _. right. right.
        rewrite Hreg2 in *. exists kind. split; [done|]. frames.
        split_and!; [congruence|congruence|lia].
      * intros kind e s3 Hf3 _ _ _. left. apply Hun. by eapply frame_trans.
    + by apply Hnormal.
Qed.

Lemma NoDup_in_range_length (l : list Z) n :
  NoDup l → Forall (λ x, 0 ≤ x < n) l → Z.of_nat (length l) ≤ Z.max n 0.
Proof.
  intros Hnd Hin.
  assert (l ⊆+ seqZ 0 n) as Hsub.
  { apply NoDup_submseteq; [done|]. intros x Hx. apply elem_of_seqZ.
    rewrite Forall_forall in Hin. apply Hin in Hx. lia. }
  apply submseteq_length in Hsub. rewrite length_seqZ in Hsub. lia.
Qed.

Lemma onset_threshold kind s :
  wp (_create_anomaly_branch cfg tape kind)
     (λ _ _, min_nodes kind ≤ N)
     (λ s', N < enough_nodes kind ∧ unchanged s s') s.
Proof.
  assert (∀ s', frame s s' → unchanged s s') as Hun.
  { intros s' Hf'. unfold unchanged. frames. split; congruence. }
  destruct kind; cbn [min_nodes enough_nodes].
  - apply onset_network_partition_spec.
    + intros s' Hf' HN. split; [exact HN|by apply Hun].
    + intros. lia.
  - apply onset_rack_power_failure_spec.
    + intros s' Hf' HN. split; [exact HN|by apply Hun].
    + intros rack_id ? ? ? Hrack _ _ _ _. pose proof (Z.mul_div_le N 32). lia.
  - eapply wp_mono;
      [apply wp_both;
         [apply (onset_filesystem_corruption_spec
                   (λ r _, (5 ≤ length r.2)%nat ∧ Forall (λ n, 0 ≤ n < N) r.2)
                   (λ s', N < 20 ∧ unchanged s s'))
         |apply onset_filesystem_corruption_NoDup]| |]; cbv beta.
    + intros s' Hf' HN. split; [exact HN|by apply Hun].
    + intros affected msgs s' Hlen Hin _ _ _. cbn [snd]. split; [lia|done].
    + intros [msgs affected] s' [[Hlen Hin] Hnd]. cbn [snd] in *.
      pose proof (NoDup_in_range_length _ _ Hnd Hin). lia.
    + tauto.
  - apply onset_memory_errors_spec.
    + intros s' Hf' HN. split; [exact HN|by apply Hun].
    + intros. lia.
  - apply onset_overheating_spec.
    + intros s' Hf' HN. split; [exact HN|by apply Hun].
    + intros. lia.
Qed.

(** ** The resolver and the catalog *)

Lemma keeps_text_refl msg : keeps_text msg msg.
Proof. apply Forall_Forall2_diag, Forall_forall. intros [?|?] _; auto. Qed.

Lemma keeps_text_trans a b c : keeps_text a b → keeps_text b c → keeps_text a c.
Proof.
  unfold keeps_text. intros Hab. revert c.
  induction Hab as [|t f a b Htf _ IH]; intros c Hbc.
  - by apply Forall2_nil_inv_l in Hbc as ->.
  - apply Forall2_cons_inv_l in Hbc as (g & c' & Hfg & Hbc & ->).
    constructor; [|by apply IH].
    destruct t as [x|h].
    + subst f. done.
    + destruct Htf as [->|Hlit]; [done|].
      destruct f as [y|?]; [|done]. subst g. by right.
Qed.

Lemma keeps_text_replace name v msg : keeps_text msg (replace_hole name v msg).
Proof.
  unfold keeps_text, replace_hole. apply Forall2_fmap_r, Forall_Forall2_diag.
  apply Forall_forall. intros [x|h] _; unfold compose.
  - by case_decide.
  - case_decide; [by right|by left].
Qed.

Lemma fill_all_keeps_text rules msg s :
  wp (fill_all rules msg) (λ msg' _, keeps_text msg msg') (λ _, True) s.
Proof.
  revert msg s. induction rules as [|[name0 gen] rules IH]; intros msg s.
  - apply wp_ret, keeps_text_refl.
  - cbn [fill_all]. apply wp_bind. unfold fill_if.
    destruct (has_hole name0 msg).
    + apply wp_bind, wp_always; [|done]. intros v s1. apply wp_ret.
      eapply wp_mono; [apply IH| |done]. intros msg' s2 Hk.
      eapply keeps_text_trans; [apply keeps_text_replace|exact Hk].
    + apply wp_ret, IH.
Qed.

Lemma catalog_holes comp template name :
  template ∈ message_templates comp →
  has_hole name template = true → name ∈ placeholder_names.
Proof.
  intros Hin Hh%has_hole_holes.
  assert (Forall (λ t, Forall (λ h, h ∈ placeholder_names) (holes t))
                 (message_templates comp)) as Hall.
  { destruct comp; apply (bool_decide_unpack _); vm_compute; reflexivity. }
  rewrite Forall_forall in Hall. apply Hall in Hin.
  rewrite Forall_forall in Hin. by apply Hin.
Qed.

Lemma fill_outcome template n s :
  wp (_fill_template_placeholders cfg tape template n)
     (λ message s',
        ∃ filled, message = render filled ∧ keeps_text template filled ∧
          (∀ name, has_hole name filled = true ↔
                   has_hole name template = true ∧ name ∉ placeholder_names) ∧
          frame s s')
     (λ s', (∃ name, has_hole name template = true ∧ raise_cond name) ∧
            frame s s') s.
Proof.
  unfold _fill_template_placeholders. apply wp_fmap.
  eapply wp_mono;
    [apply wp_both;
       [apply wp_both; [apply fill_all_holes|apply fill_all_keeps_text]
       |apply (wp_fill_all _ _ (λ _ s', frame s s')
                 (λ s', (∃ name, has_hole name template = true ∧ raise_cond name) ∧
                        frame s s'))]| |]; cbv beta.
  - apply placeholder_rules_ok.
  - done.
  - intros name s' Hh Hc Hf. split; [by exists name|done].
  - intros filled s' [[Hholes Hk] Hf]. exists filled.
    rewrite placeholder_rules_names in Hholes. done.
  - tauto.
Qed.

Lemma normal_log_resolved s :
  (∀ n, 0 ≤ n < N → is_Some (node_status s !! n)) →
  wp (normal_log cfg tape)
     (λ r s',
        ∃ e template filled,
          r = [e] ∧ 0 ≤ node_id e < N ∧
          template ∈ message_templates (component e) ∧
          keeps_text template filled ∧ Forall is_lit filled ∧
          message e = render filled ∧
          timestamp e = ms s' ∧ frame s s')
     (λ s', N < 10 ∧ frame s s') s.
Proof.
  intros Hdom. unfold normal_log.
  apply wp_bind, wp_randint; [intros; split; [lia|apply frame_refl]|].
  intros n s1 _ Hn Hf1.
  apply wp_bind, wp_choice; [done|]. intros comp s2 _ Hf2.
  apply wp_bind, wp_get_severity.
  { intros Hnone. destruct (Hdom n) as [st Hst]; [lia|]. frames. congruence. }
  intros sev s3 Hf3. cbv zeta.
  apply wp_bind, wp_choice.
  { intros Hnil. destruct comp; discriminate Hnil. }
  intros template s4 Htpl Hf4.
  assert (frame s s4) as Hf04.
  { eapply frame_trans; [|exact Hf4]. eapply frame_trans; [|exact Hf3].
    eapply frame_trans; [exact Hf1|exact Hf2]. }
  apply wp_bind. eapply wp_mono; [apply fill_outcome| |]; cbv beta.
  - intros msg s5 (filled & -> & Hk & Hholes & Hf5).
    apply wp_bind, wp_generate_timestamp. intros s6 Hf6. apply wp_ret.
    eexists _, template, filled. split; [reflexivity|].
    cbn [node_id component message timestamp _format_log_entry].
    split_and!; [lia|lia|done|done| |done|done|].
    + apply no_hole_lits. intros name.
      destruct (has_hole name filled) eqn:Hh; [|done].
      apply Hholes in Hh as [Hh Hnot]. destruct Hnot. by eapply catalog_holes.
    + eapply frame_trans; [exact Hf04|]. by eapply frame_trans.
  - intros s5 [(name & _ & Hc) Hf5]. split.
    + destruct Hc as [[_ ?]|[_ ?]]; lia.
    + by eapply frame_trans.
Qed.

End Specs.

(** * States of a simulator *)

Lemma generate_logs_spec cfg tape count s :
  Inv cfg s →
  wp (generate_logs cfg tape count) (run_post cfg (Z.to_nat count) s)
     (tick_exc cfg) s.
Proof. apply repeat_tick_spec. Qed.

Lemma reachable_Inv cfg s : reachable cfg s → Inv cfg s.
Proof.
  induction 1 as [now|tape count s _ IH]; [apply Inv_init|].
  pose proof (generate_logs_spec cfg tape count s IH) as Hwp. unfold wp in Hwp.
  destruct (generate_logs cfg tape count s); simpl; apply Hwp.
Qed.

Lemma reachable_quiet cfg s :
  (anomaly_probability cfg == 0)%Q → reachable cfg s → quiet s.
Proof.
  intros Hp Hr.
  assert (Inv cfg s ∧ quiet s) as [_ ?]; [|done].
  induction Hr as [now|tape count s _ [IH1 IH2]]; [apply Inv_init|].
  pose proof (repeat_tick_quiet_spec cfg tape (Z.to_nat count) s Hp IH1 IH2) as Hwp.
  unfold wp, generate_logs in *.
  destruct (repeat_extend _ _ s); simpl; tauto.
Qed.

Lemma Inv_entry cfg s kind nodes :
  Inv cfg s → (kind, nodes) ∈ active_anomalies s →
  registry_get (active_anomalies s) kind = nodes.
Proof. intros [_ Hkeys _] Hin. by apply registry_get_elem_of. Qed.

Lemma registry_set_elem reg kind nodes :
  (kind, nodes) ∈ registry_set reg kind nodes.
Proof.
  induction reg as [|[k v] reg IH]; simpl; [left|].
  case_decide; [subst; left|by right].
Qed.

Lemma degraded_not_operational kind : degraded kind ≠ OPERATIONAL.
Proof. by destruct kind. Qed.

(** At most one kind is live in a state satisfying the invariant. *)
Lemma Inv_single_kind cfg s k1 k2 nodes1 nodes2 :
  Inv cfg s →
  (k1, nodes1) ∈ active_anomalies s → nodes1 ≠ [] →
  (k2, nodes2) ∈ active_anomalies s → nodes2 ≠ [] →
  k1 = k2.
Proof.
  intros HInv H1 Hne1 H2 Hne2.
  apply (Inv_entry _ _ _ _ HInv) in H1, H2.
  destruct HInv as [_ _ (k0 & nodes & Hget & _)].
  rewrite Hget in H1, H2. repeat case_decide; congruence.
Qed.

(** * The properties of the specification *)

(** ** C1: number of records *)

(** C1, as stated, fails on a cluster of fewer than ten nodes:
    with [anomaly_probability = 0] and [num_nodes = 5 > 0], the first tick
    draws node 0, the SCHEDULER component and its template
    "Job {job_id} scheduled on nodes {node_range}"; filling [{node_range}]
    calls [randint(0, num_nodes - 10)], which raises [ValueError], and
    [generate_logs(1)] returns no record at all. *)
Lemma C1_counterexample :
  anomaly_probability cfg_five_nodes = 0%Q ∧ 0 < num_nodes cfg_five_nodes ∧
  result_error
    (generate_logs cfg_five_nodes (tape_of [0; 0; 6]) 1 (init cfg_five_nodes 0))
  = Some ValueError.
Proof. split_and!; [done|done|]. vm_compute. reflexivity. Qed.

(** C1 (amended): on a simulator built by [__init__] and used through
    [generate_logs], for every [count >= 0]: with [num_nodes >= 100] the call
    [generate_logs(count)] returns at least [count] records; with
    [anomaly_probability = 0] and [num_nodes >= 10] it returns exactly [count]
    records. *)
Theorem C1_generate_logs_length cfg tape s count :
  reachable cfg s → 0 ≤ count →
  (100 ≤ num_nodes cfg →
   ∃ logs s', generate_logs cfg tape count s = Ok logs s' ∧
              count ≤ Z.of_nat (length logs)) ∧
  ((anomaly_probability cfg == 0)%Q → 10 ≤ num_nodes cfg →
   ∃ logs s', generate_logs cfg tape count s = Ok logs s' ∧
              Z.of_nat (length logs) = count).
Proof.
  intros Hr Hcount. pose proof (reachable_Inv _ _ Hr) as HInv. split.
  - intros HN.
    destruct (wp_inv_ok (generate_logs cfg tape count)
                (run_post cfg (Z.to_nat count) s) s) as (logs & s' & Heq & Hpost).
    { eapply wp_mono; [by apply generate_logs_spec|done|]. intros s' [_ ?]. lia. }
    exists logs, s'. split; [done|]. destruct Hpost as (_ & _ & _ & Hlen). lia.
  - intros Hp HN. pose proof (reachable_quiet _ _ Hp Hr) as Hq.
    destruct (wp_inv_ok (generate_logs cfg tape count)
                (λ logs s', Inv cfg s' ∧ quiet s' ∧ length logs = Z.to_nat count) s)
      as (logs & s' & Heq & Hpost).
    { eapply wp_mono; [by apply repeat_tick_quiet_spec|done|].
      intros s' (_ & _ & ?). lia. }
    exists logs, s'. split; [done|]. destruct Hpost as (_ & _ & Hlen). lia.
Qed.

Lemma C1_witness :
  (∃ logs s',
     generate_logs cfg_no_anomaly (tape_of []) 3 (init cfg_no_anomaly 0) = Ok logs s' ∧
     3 ≤ Z.of_nat (length logs)) ∧
  (∃ logs s',
     generate_logs cfg_no_anomaly (tape_of []) 3 (init cfg_no_anomaly 0) = Ok logs s' ∧
     Z.of_nat (length logs) = 3).
Proof.
  destruct (C1_generate_logs_length cfg_no_anomaly (tape_of [])
              (init cfg_no_anomaly 0) 3 (reach_init _ _) ltac:(lia)) as [H1 H2].
  split; [apply H1; simpl; lia|apply H2; [reflexivity|simpl; lia]].
Defined.

(** ** C2: node ids *)

(** C2: with [num_nodes >= 100], on a simulator built by [__init__] and used
    through [generate_logs], every call [generate_logs(count)] returns, and
    every record it returns (normal log, onset, continuation or resolution
    record) carries a node id in [[0, num_nodes)]. *)
Theorem C2_node_ids_in_range cfg tape s count :
  100 ≤ num_nodes cfg → reachable cfg s →
  ∃ logs s', generate_logs cfg tape count s = Ok logs s' ∧
             Forall (λ e, 0 ≤ node_id e < num_nodes cfg) logs.
Proof.
  intros HN Hr. pose proof (reachable_Inv _ _ Hr) as HInv.
  destruct (wp_inv_ok (generate_logs cfg tape count)
              (run_post cfg (Z.to_nat count) s) s) as (logs & s' & Heq & Hpost).
  { eapply wp_mono; [by apply generate_logs_spec|done|]. intros s' [_ ?]. lia. }
  exists logs, s'. split; [done|]. apply Hpost.
Qed.

Lemma C2_witness :
  ∃ logs s',
    generate_logs cfg_anomalies (tape_of []) 3 (init cfg_anomalies 0) = Ok logs s' ∧
    Forall (λ e, 0 ≤ node_id e < num_nodes cfg_anomalies) logs.
Proof.
  apply (C2_node_ids_in_range cfg_anomalies (tape_of []) (init cfg_anomalies 0) 3);
    [simpl; lia|apply reach_init].
Defined.

(** ** C4: timestamps *)

(** C4: on a simulator built by [__init__] and used through [generate_logs],
    the timestamps of the records returned by [generate_logs(count)] are
    non-decreasing in sequence order; a call that returns nothing has raised,
    which happens only with [num_nodes < 100]. *)
Theorem C4_timestamps_non_decreasing cfg tape s count :
  reachable cfg s →
  match generate_logs cfg tape count s with
  | Ok logs _ =>
      ∀ (i j : nat) ei ej,
        (i ≤ j)%nat → logs !! i = Some ei → logs !! j = Some ej →
        timestamp ei ≤ timestamp ej
  | Raise _ _ => num_nodes cfg < 100
  end.
Proof.
  intros Hr. pose proof (reachable_Inv _ _ Hr) as HInv.
  pose proof (generate_logs_spec cfg tape count s HInv) as Hwp. unfold wp in Hwp.
  destruct (generate_logs cfg tape count s) as [logs s'|e s']; [|apply Hwp].
  destruct Hwp as (_ & _ & Hts & _). intros i j ei ej. by eapply stamped_sorted.
Qed.

Lemma C4_witness :
  match generate_logs cfg_anomalies (tape_of [0; 3; 7; 1; 5]) 3 (init cfg_anomalies 0) with
  | Ok logs _ =>
      ∀ (i j : nat) ei ej,
        (i ≤ j)%nat → logs !! i = Some ei → logs !! j = Some ej →
        timestamp ei ≤ timestamp ej
  | Raise _ _ => num_nodes cfg_anomalies < 100
  end.
Proof.
  apply (C4_timestamps_non_decreasing cfg_anomalies (tape_of [0; 3; 7; 1; 5])
           (init cfg_anomalies 0) 3), reach_init.
Defined.

(** ** C6, C7, C8: onsets *)

Lemma onset_statuses kind s affected s' n :
  onset_post kind s affected s' → n ∈ affected →
  node_status s' !! n = Some (degraded kind).
Proof. intros (Hst & _) Hn. by rewrite Hst, lookup_set_all, decide_True. Qed.

(** C6: with [num_nodes >= 32], a [rack_power_failure] onset affects exactly
    the 32 node ids [rack_id*32 .. rack_id*32+31] of some rack index
    [rack_id], sets the status of each to POWERED_OFF, and emits one FATAL
    POWER master record followed by one ERROR POWER record per affected node,
    in order. *)
Theorem C6_rack_power_failure_onset cfg tape s :
  32 ≤ num_nodes cfg →
  returns (choice tape anomaly_kinds s) rack_power_failure →
  ∃ rack_id master per_node s',
    _create_anomaly cfg tape s =
      Ok (master :: per_node, seqZ (rack_id * 32) 32) s' ∧
    0 ≤ rack_id < num_nodes cfg `div` 32 ∧
    (∀ n, rack_id * 32 ≤ n ≤ rack_id * 32 + 31 →
          node_status s' !! n = Some POWERED_OFF) ∧
    severity master = FATAL ∧ component master = POWER ∧
    Forall2 (λ n e, node_id e = n ∧ severity e = ERROR ∧ component e = POWER)
            (seqZ (rack_id * 32) 32) per_node.
Proof.
  intros HN [s1 Hc]. rewrite (create_anomaly_eq _ _ _ _ _ Hc).
  edestruct (wp_inv_ok (_create_anomaly_branch cfg tape rack_power_failure)
    (λ r s', ∃ rack_id master per_node,
       r = (master :: per_node, seqZ (rack_id * 32) 32) ∧
       0 ≤ rack_id < num_nodes cfg `div` 32 ∧
       (∀ n, rack_id * 32 ≤ n ≤ rack_id * 32 + 31 →
             node_status s' !! n = Some POWERED_OFF) ∧
       severity master = FATAL ∧ component master = POWER ∧
       Forall2 (λ n e, node_id e = n ∧ severity e = ERROR ∧ component e = POWER)
               (seqZ (rack_id * 32) 32) per_node) s1)
    as (r & s' & Heq & rack_id & master & per_node & -> & H).
  { apply onset_rack_power_failure_spec; [intros; lia|].
    intros rack_id master msgs s' Hrack Hpost (_ & Hsev & Hcomp) HR _.
    exists rack_id, master, msgs. split_and!; [done|lia|lia| |done..].
    intros n Hn. apply (onset_statuses _ _ _ _ n Hpost), elem_of_seqZ. lia. }
  by exists rack_id, master, per_node, s'.
Qed.

Lemma C6_witness :
  ∃ rack_id master per_node s',
    _create_anomaly cfg_two_racks (tape_of [1; 1]) (init cfg_two_racks 0) =
      Ok (master :: per_node, seqZ (rack_id * 32) 32) s' ∧
    0 ≤ rack_id < num_nodes cfg_two_racks `div` 32 ∧
    (∀ n, rack_id * 32 ≤ n ≤ rack_id * 32 + 31 →
          node_status s' !! n = Some POWERED_OFF) ∧
    severity master = FATAL ∧ component master = POWER ∧
    Forall2 (λ n e, node_id e = n ∧ severity e = ERROR ∧ component e = POWER)
            (seqZ (rack_id * 32) 32) per_node.
Proof.
  apply (C6_rack_power_failure_onset cfg_two_racks (tape_of [1; 1])
           (init cfg_two_racks 0)); [simpl; lia|].
  eexists. reflexivity.
Defined.

(** C7: a [memory_errors] onset targets a single node, sets its status to
    MEMORY_ERROR, and emits between 3 and 10 MEMORY records, all on that node:
    the first two WARNING, the last FATAL, the ones in between ERROR.  The
    onset raises only when the cluster has no node. *)
Theorem C7_memory_errors_onset cfg tape s :
  returns (choice tape anomaly_kinds s) memory_errors →
  match _create_anomaly cfg tape s with
  | Ok (msgs, affected) s' =>
      ∃ node,
        affected = [node] ∧
        node_status s' !! node = Some MEMORY_ERROR ∧
        (3 ≤ length msgs ≤ 10)%nat ∧
        Forall (λ e, node_id e = node ∧ component e = MEMORY) msgs ∧
        ∀ (i : nat) e, msgs !! i = Some e →
          severity e = if decide (i < 2)%nat then WARNING
                       else if decide (i = length msgs - 1)%nat then FATAL
                       else ERROR
  | Raise _ _ => num_nodes cfg ≤ 0
  end.
Proof.
  intros [s1 Hc]. rewrite (create_anomaly_eq _ _ _ _ _ Hc).
  apply onset_memory_errors_spec; [intros; lia|].
  intros node count msgs s' Hnode Hcount Hpost HR _.
  assert (length msgs = Z.to_nat count) as Hlen
    by (apply Forall2_length in HR; rewrite <- HR, length_seqZ; done).
  exists node. split_and!; [done| |lia|lia| |].
  - apply (onset_statuses _ _ _ _ node Hpost). left.
  - eapply Forall2_Forall_r; [done|]. apply Forall_forall. intros i _ e. tauto.
  - intros i e He. destruct (Forall2_lookup_r _ _ _ _ _ HR He) as (z & Hz & _ & _ & ->).
    apply lookup_seqZ in Hz as [-> Hi]. rewrite Hlen.
    repeat case_decide; done || lia.
Qed.

Lemma C7_witness :
  match _create_anomaly cfg_four_nodes (tape_of [3; 2; 1]) (init cfg_four_nodes 0) with
  | Ok (msgs, affected) s' =>
      ∃ node,
        affected = [node] ∧
        node_status s' !! node = Some MEMORY_ERROR ∧
        (3 ≤ length msgs ≤ 10)%nat ∧
        Forall (λ e, node_id e = node ∧ component e = MEMORY) msgs ∧
        ∀ (i : nat) e, msgs !! i = Some e →
          severity e = if decide (i < 2)%nat then WARNING
                       else if decide (i = length msgs - 1)%nat then FATAL
                       else ERROR
  | Raise _ _ => num_nodes cfg_four_nodes ≤ 0
  end.
Proof.
  apply (C7_memory_errors_onset cfg_four_nodes (tape_of [3; 2; 1])
           (init cfg_four_nodes 0)).
  eexists. reflexivity.
Defined.

(** C8, as stated, fails: on 101 nodes the draw [randint(0, 1)] of the start
    can give 1, the upper end [num_nodes - 100], and the onset then affects
    the ids 1..10, whose start is outside [[0, num_nodes - 100)]. *)
Lemma C8_counterexample :
  100 ≤ num_nodes cfg_101_nodes ∧
  returns (choice (tape_of [0; 1; 0]) anomaly_kinds (init cfg_101_nodes 0))
          network_partition ∧
  snd <$> result_value
            (_create_anomaly cfg_101_nodes (tape_of [0; 1; 0]) (init cfg_101_nodes 0))
    = Some (seqZ 1 10) ∧
  ¬ network_range 0 (num_nodes cfg_101_nodes - 100) (seqZ 1 10).
Proof.
  split_and!; [simpl; lia|eexists; reflexivity|vm_compute; reflexivity|].
  intros (start & len & Hstart & Hlen & Heq). simpl in Hstart.
  assert (start = 0) as -> by lia.
  apply (f_equal head) in Heq.
  rewrite (seqZ_cons 1), (seqZ_cons 0) in Heq by lia. simpl in Heq. discriminate Heq.
Qed.

(** C8 (amended): with [num_nodes >= 100], a [network_partition] onset
    affects a contiguous range of node ids whose start is drawn from
    [[0, num_nodes - 100]], both ends included, and whose length is in
    [[10, 100]]; it emits one ERROR NETWORK record per affected node, in
    order, and sets the status of each affected node to NETWORK_DEGRADED. *)
Theorem C8_network_partition_onset cfg tape s :
  100 ≤ num_nodes cfg →
  returns (choice tape anomaly_kinds s) network_partition →
  ∃ msgs affected s',
    _create_anomaly cfg tape s = Ok (msgs, affected) s' ∧
    network_range 0 (num_nodes cfg - 100 + 1) affected ∧
    Forall2 (λ n e, node_id e = n ∧ severity e = ERROR ∧ component e = NETWORK)
            affected msgs ∧
    ∀ n, n ∈ affected → node_status s' !! n = Some NETWORK_DEGRADED.
Proof.
  intros HN [s1 Hc]. rewrite (create_anomaly_eq _ _ _ _ _ Hc).
  edestruct (wp_inv_ok (_create_anomaly_branch cfg tape network_partition)
    (λ r s',
       network_range 0 (num_nodes cfg - 100 + 1) r.2 ∧
       Forall2 (λ n e, node_id e = n ∧ severity e = ERROR ∧ component e = NETWORK)
               r.2 r.1 ∧
       ∀ n, n ∈ r.2 → node_status s' !! n = Some NETWORK_DEGRADED) s1)
    as ([msgs affected] & s' & Heq & H).
  { apply onset_network_partition_spec; [intros; lia|].
    intros start len msgs s' Hstart Hlen Hpost HR _. simpl. split_and!; [|done|].
    - exists start, len. split_and!; lia || done.
    - intros n Hn. by apply (onset_statuses _ _ _ _ n Hpost). }
  by exists msgs, affected, s'.
Qed.

Lemma C8_witness :
  ∃ msgs affected s',
    _create_anomaly cfg_101_nodes (tape_of [0; 1; 0]) (init cfg_101_nodes 0)
      = Ok (msgs, affected) s' ∧
    network_range 0 (num_nodes cfg_101_nodes - 100 + 1) affected ∧
    Forall2 (λ n e, node_id e = n ∧ severity e = ERROR ∧ component e = NETWORK)
            affected msgs ∧
    ∀ n, n ∈ affected → node_status s' !! n = Some NETWORK_DEGRADED.
Proof.
  apply (C8_network_partition_onset cfg_101_nodes (tape_of [0; 1; 0])
           (init cfg_101_nodes 0)); [simpl; lia|].
  eexists. reflexivity.
Defined.

(** ** C3: resolution *)


Lemma after_memory_onset_reachable : reachable cfg_four_nodes after_memory_onset.
Proof. apply reach_run, reach_init. Qed.

(** ** C5: simultaneously active kinds *)

(** C5, as stated, fails: no state reachable by the generation loop has two
    distinct kinds with a non-empty node list, because [generate_logs] starts
    an anomaly only when [any(self.active_anomalies.values())] is false. *)
Lemma C5_counterexample : ¬ ∃ cfg s, reachable cfg s ∧ two_kinds_active s.
Proof.
  intros (cfg & s & Hr & k1 & k2 & nodes1 & nodes2 & Hne & H1 & Hn1 & H2 & Hn2).
  apply Hne.
  apply (Inv_single_kind cfg s k1 k2 nodes1 nodes2); [by apply reachable_Inv|done..].
Qed.

(** C5 (amended): at every state reachable by the generation loop from a
    freshly constructed simulator, at most one anomaly kind has a non-empty
    node list in the registry. *)
Theorem C5_at_most_one_kind_active cfg s k1 k2 nodes1 nodes2 :
  reachable cfg s →
  (k1, nodes1) ∈ active_anomalies s → nodes1 ≠ [] →
  (k2, nodes2) ∈ active_anomalies s → nodes2 ≠ [] →
  k1 = k2.
Proof.
  intros Hr H1 Hn1 H2 Hn2.
  apply (Inv_single_kind cfg s k1 k2 nodes1 nodes2); [by apply reachable_Inv|done..].
Qed.

Lemma C5_witness :
  reachable cfg_four_nodes after_memory_onset ∧
  (memory_errors, [2]) ∈ active_anomalies after_memory_onset ∧
  memory_errors = memory_errors.
Proof.
  assert ((memory_errors, [2]) ∈ active_anomalies after_memory_onset) as Hin
    by (apply (bool_decide_unpack _); vm_compute; exact I).
  split_and!; [apply after_memory_onset_reachable|done|].
  apply (C5_at_most_one_kind_active cfg_four_nodes after_memory_onset
           memory_errors memory_errors [2] [2]);
    [apply after_memory_onset_reachable|done|done|done|done].
Defined.

(** ** C9: nothing to continue *)

(** C9: if no anomaly kind has a non-empty node list in the registry,
    [_continue_anomaly] returns the empty sequence and leaves the simulator
    state (node statuses, registry, clock, and the random generator) as it
    was; resolving when every kind is INACTIVE changes no status and emits
    no record. *)
Theorem C9_continue_without_active_anomaly cfg tape s :
  (∀ kind nodes, (kind, nodes) ∈ active_anomalies s → nodes = []) →
  _continue_anomaly cfg tape s = Ok [] s.
Proof.
  intros Hnone. apply continue_anomaly_quiet. unfold quiet.
  destruct (any_active _) eqn:Hany; [|done].
  apply any_active_true in Hany as ([k v] & Hin & Hne). by apply Hnone in Hin.
Qed.

Lemma C9_witness :
  _continue_anomaly cfg_no_anomaly (tape_of []) (init cfg_no_anomaly 0)
  = Ok [] (init cfg_no_anomaly 0).
Proof.
  apply (C9_continue_without_active_anomaly cfg_no_anomaly (tape_of [])
           (init cfg_no_anomaly 0)).
  simpl. intros kind nodes Hin. by apply elem_of_nil in Hin.
Defined.

(** ** C10: statuses and registry agree *)

(** C10: at every state reachable through [generate_logs] from a freshly
    constructed simulator, a node's status differs from OPERATIONAL exactly
    when its id is on the node list of some anomaly kind in the registry, and
    the status is then the degraded status of that kind. *)
Theorem C10_status_matches_registry cfg s n st :
  reachable cfg s → node_status s !! n = Some st →
  (st ≠ OPERATIONAL ↔
   ∃ kind nodes, (kind, nodes) ∈ active_anomalies s ∧ n ∈ nodes) ∧
  (∀ kind nodes, (kind, nodes) ∈ active_anomalies s → n ∈ nodes →
                 st = degraded kind).
Proof.
  intros Hr Hst. pose proof (reachable_Inv _ _ Hr) as HInv.
  pose proof HInv as [_ _ (k0 & nodes0 & Hget & Hstat & _)].
  apply Hstat in Hst.
  assert (∀ kind nodes, (kind, nodes) ∈ active_anomalies s → n ∈ nodes →
                        kind = k0 ∧ nodes = nodes0) as Hentry.
  { intros kind nodes Hin Hn. apply (Inv_entry _ _ _ _ HInv) in Hin.
    rewrite Hget in Hin. case_decide; [done|]. subst. by apply elem_of_nil in Hn. }
  split; [split|].
  - intros Hne. case_decide as Hn; [|done]. exists k0, nodes0. split; [|done].
    specialize (Hget k0). rewrite decide_True in Hget by done. rewrite <- Hget.
    apply registry_get_nonempty. rewrite Hget. intros ->. by apply elem_of_nil in Hn.
  - intros (kind & nodes & Hin & Hn). destruct (Hentry _ _ Hin Hn) as [-> ->].
    rewrite decide_True in Hst by done. subst. apply degraded_not_operational.
  - intros kind nodes Hin Hn. destruct (Hentry _ _ Hin Hn) as [-> ->].
    by rewrite decide_True in Hst.
Qed.

Lemma C10_witness :
  (MEMORY_ERROR ≠ OPERATIONAL ↔
   ∃ kind nodes, (kind, nodes) ∈ active_anomalies after_memory_onset ∧ 2 ∈ nodes) ∧
  (∀ kind nodes, (kind, nodes) ∈ active_anomalies after_memory_onset → 2 ∈ nodes →
                 MEMORY_ERROR = degraded kind).
Proof.
  apply (C10_status_matches_registry cfg_four_nodes after_memory_onset 2 MEMORY_ERROR).
  - apply after_memory_onset_reachable.
  - vm_compute. reflexivity.
Defined.

(** * Further properties of the code *)

(** ** Timestamps and severities *)

(** X1: while the clock is at least five seconds short of [datetime.max],
    so that the addition cannot overflow, [_generate_timestamp] returns: it
    makes exactly one draw, moves the clock forward by at most five seconds,
    to an instant still within the range of [datetime], returns that instant
    with the microseconds cut to milliseconds, not rounded, and touches
    neither statuses nor registry. *)
Theorem X1_generate_timestamp_advances tape s :
  current_time s + 5000000 ≤ datetime_max →
  ∃ stamp s',
    _generate_timestamp tape s = Ok stamp s' ∧
    current_time s ≤ current_time s' ≤ current_time s + 5000000 ∧
    current_time s' ≤ datetime_max ∧
    stamp = strftime_ms (current_time s') ∧
    stamp * 1000 ≤ current_time s' < stamp * 1000 + 1000 ∧
    rng_pos s' = S (rng_pos s) ∧
    unchanged s s'.
Proof.
  intros Hmax. destruct (generate_timestamp_exact tape s) as (us & Hus & Heq).
  eexists _, _. split; [exact Heq|]. cbn [current_time rng_pos]. unfold unchanged.
  cbn [node_status active_anomalies].
  pose proof (Z.mul_div_le (current_time s + us) 1000).
  pose proof (Z.mod_pos_bound (current_time s + us) 1000).
  pose proof (Z.div_mod (current_time s + us) 1000).
  unfold strftime_ms. split_and!; lia || done.
Qed.

Lemma X1_witness :
  ∃ stamp s',
    _generate_timestamp (tape_of []) (init cfg_five_nodes 0) = Ok stamp s' ∧
    current_time (init cfg_five_nodes 0) ≤ current_time s'
      ≤ current_time (init cfg_five_nodes 0) + 5000000 ∧
    current_time s' ≤ datetime_max ∧
    stamp = strftime_ms (current_time s') ∧
    stamp * 1000 ≤ current_time s' < stamp * 1000 + 1000 ∧
    rng_pos s' = S (rng_pos (init cfg_five_nodes 0)) ∧
    unchanged (init cfg_five_nodes 0) s'.
Proof.
  apply (X1_generate_timestamp_advances (tape_of []) (init cfg_five_nodes 0)).
  vm_compute. discriminate.
Defined.

(** X2: [_get_severity] on a node id that is not a key of the status table
    raises [KeyError] before any draw, leaving the state as it was; on a known
    node it always returns a severity, after two draws when the node is
    OPERATIONAL (the error-rate draw and the weighted choice) and after one
    draw otherwise, and changes nothing else. *)
Theorem X2_get_severity_outcome cfg tape comp n s :
  match node_status s !! n with
  | None => _get_severity cfg tape comp n s = Raise KeyError s
  | Some st =>
      ∃ sev, _get_severity cfg tape comp n s =
               Ok sev (after_draws (if decide (st = OPERATIONAL) then 2 else 1) s)
  end.
Proof.
  destruct (node_status s !! n) as [st|] eqn:Hst.
  - by apply get_severity_present.
  - by apply get_severity_missing.
Qed.

(** ** The placeholder resolver *)

(** X3: a template without placeholders is returned verbatim by
    [_fill_template_placeholders], with no draw and no change of state. *)
Theorem X3_fill_without_placeholders cfg tape template n s :
  Forall is_lit template →
  _fill_template_placeholders cfg tape template n s = Ok (render template) s.
Proof.
  intros Hlit. unfold _fill_template_placeholders, fmap, M_fmap.
  by rewrite fill_all_lits.
Qed.

Lemma X3_witness :
  _fill_template_placeholders cfg_five_nodes (tape_of [])
    (tpl "Scheduled maintenance completed") 0 (init cfg_five_nodes 0)
  = Ok (render (tpl "Scheduled maintenance completed")) (init cfg_five_nodes 0).
Proof.
  apply (X3_fill_without_placeholders cfg_five_nodes (tape_of [])
           (tpl "Scheduled maintenance completed") 0 (init cfg_five_nodes 0)).
  vm_compute. repeat constructor.
Defined.

Lemma replace_hole_absent name v msg :
  has_hole name msg = false → replace_hole name v msg = msg.
Proof.
  intros Hno%bool_decide_eq_false. unfold replace_hole.
  rewrite <- (list_fmap_id msg) at 2. apply list_fmap_ext. intros i tok Hi.
  case_decide; [|done]. subst. destruct Hno. by eapply list_elem_of_lookup_2.
Qed.

Lemma replace_hole_lits name v msg :
  Forall (λ h, h = name) (holes msg) → Forall is_lit (replace_hole name v msg).
Proof.
  intros Honly. unfold replace_hole. apply Forall_fmap, Forall_forall.
  intros [x|h] Hin; unfold compose.
  - by case_decide.
  - rewrite Forall_forall in Honly.
    rewrite (Honly h), decide_True; [done..|].
    by apply has_hole_holes, bool_decide_eq_true.
Qed.

(** X21: a template whose only placeholder is [{node_id}] is filled without
    a draw and without touching the state: the message is the template with
    [{node_id}] replaced by the node id in at least four digits. *)
Theorem X21_fill_node_id_only cfg tape template n s :
  Forall (λ h, h = "node_id"%string) (holes template) →
  _fill_template_placeholders cfg tape template n s =
    Ok (render (replace_hole "node_id" (fmt_d 4 n) template)) s.
Proof.
  intros Honly. unfold _fill_template_placeholders, fmap, M_fmap.
  change (placeholder_rules cfg tape n)
    with (("node_id"%string, mret (fmt_d 4 n) : M string)
            :: tail (placeholder_rules cfg tape n)).
  cbn [fill_all]. unfold fill_if, mbind, M_bind.
  destruct (has_hole "node_id" template) eqn:Hh.
  - unfold mret, M_ret. by rewrite fill_all_lits by by apply replace_hole_lits.
  - unfold mret, M_ret. rewrite replace_hole_absent by done.
    rewrite fill_all_lits; [done|].
    rewrite <- (replace_hole_absent "node_id" (fmt_d 4 n) template) by done.
    by apply replace_hole_lits.
Qed.

Lemma X21_witness :
  _fill_template_placeholders cfg_five_nodes (tape_of [])
    (tpl "Network connectivity restored on node {node_id}") 3
    (init cfg_five_nodes 0)
  = Ok (render (replace_hole "node_id" (fmt_d 4 3)
                  (tpl "Network connectivity restored on node {node_id}")))
       (init cfg_five_nodes 0).
Proof.
  apply (X21_fill_node_id_only cfg_five_nodes (tape_of [])
           (tpl "Network connectivity restored on node {node_id}") 3
           (init cfg_five_nodes 0)).
  vm_compute. repeat constructor.
Defined.

(** X4: what [_fill_template_placeholders] does to a template.  When it
    returns, the message keeps the fixed text of the template, in order, and
    each placeholder either stays or is replaced by one value: it stays
    exactly when it is not one of the 45 names the resolver handles.  It raises only for
    a template with [{target_node}] on a cluster without nodes or with
    [{node_range}] on fewer than ten nodes.  Either way statuses and registry
    are untouched. *)
Theorem X4_fill_outcome cfg tape template n s :
  match _fill_template_placeholders cfg tape template n s with
  | Ok message s' =>
      ∃ filled,
        message = render filled ∧ keeps_text template filled ∧
        (∀ name, has_hole name filled = true ↔
                 has_hole name template = true ∧ name ∉ placeholder_names) ∧
        unchanged s s'
  | Raise _ s' =>
      ((has_hole "target_node" template = true ∧ num_nodes cfg < 1) ∨
       (has_hole "node_range" template = true ∧ num_nodes cfg < 10)) ∧
      unchanged s s'
  end.
Proof.
  pose proof (fill_outcome cfg tape template n s) as Hwp. unfold wp in Hwp.
  destruct (_fill_template_placeholders cfg tape template n s) as [message s'|e s'].
  - destruct Hwp as (filled & -> & Hk & Hholes & Hf). exists filled.
    split_and!; [done|done|done|]. split; apply Hf.
  - destruct Hwp as [(name & Hh & [[-> HN]|[-> HN]]) Hf];
      (split; [tauto|split; apply Hf]).
Qed.

(** X5: unless the template contains [{timestamp}],
    [_fill_template_placeholders] leaves the clock where it was, whether it
    returns or raises: it only consumes draws. *)
Theorem X5_fill_keeps_clock cfg tape template n s :
  has_hole "timestamp" template = false →
  draws_only s (final_state (_fill_template_placeholders cfg tape template n s)).
Proof.
  intros Hno.
  pose proof (fill_all_draws_only (placeholder_rules cfg tape n) template s
                (placeholder_rules_draws_only cfg tape n) Hno) as Hwp.
  unfold wp in Hwp. unfold _fill_template_placeholders, fmap, M_fmap.
  by destruct (fill_all _ _ s).
Qed.

Lemma X5_witness :
  draws_only (init cfg_five_nodes 0)
    (final_state
       (_fill_template_placeholders cfg_five_nodes (tape_of [])
          (tpl "Memory usage at {percent}% on node {node_id}") 3
          (init cfg_five_nodes 0))).
Proof.
  apply (X5_fill_keeps_clock cfg_five_nodes (tape_of [])
           (tpl "Memory usage at {percent}% on node {node_id}") 3
           (init cfg_five_nodes 0)).
  vm_compute. reflexivity.
Defined.

(** X6: the catalog built by [_init_message_templates] and the resolver
    agree: on a cluster of at least ten nodes, filling any template of any
    component's catalog returns, and the message is the template with every
    placeholder replaced by a value, none left. *)
Theorem X6_catalog_templates_resolved cfg tape comp template n s :
  10 ≤ num_nodes cfg → template ∈ message_templates comp →
  ∃ filled s',
    _fill_template_placeholders cfg tape template n s = Ok (render filled) s' ∧
    keeps_text template filled ∧ Forall is_lit filled.
Proof.
  intros HN Hin.
  pose proof (fill_outcome cfg tape template n s) as Hwp. unfold wp in Hwp.
  destruct (_fill_template_placeholders cfg tape template n s) as [message s'|e s'].
  - destruct Hwp as (filled & -> & Hk & Hholes & _). exists filled, s'.
    split_and!; [done|done|]. apply no_hole_lits. intros name.
    destruct (has_hole name filled) eqn:Hh; [|done].
    apply Hholes in Hh as [Hh Hnot]. destruct Hnot. by eapply catalog_holes.
  - destruct Hwp as [(name & _ & [[_ ?]|[_ ?]]) _]; lia.
Qed.

Lemma X6_witness :
  ∃ filled s',
    _fill_template_placeholders cfg_no_anomaly (tape_of [])
      (tpl "Kernel panic on node {node_id}, process {pid} terminated") 7
      (init cfg_no_anomaly 0) = Ok (render filled) s' ∧
    keeps_text (tpl "Kernel panic on node {node_id}, process {pid} terminated")
      filled ∧
    Forall is_lit filled.
Proof.
  apply (X6_catalog_templates_resolved cfg_no_anomaly (tape_of []) KERNEL
           (tpl "Kernel panic on node {node_id}, process {pid} terminated") 7
           (init cfg_no_anomaly 0)).
  - simpl. lia.
  - apply (bool_decide_unpack _). vm_compute. reflexivity.
Defined.

(** ** Onsets *)

(** X7: with [num_nodes >= 20], a [filesystem_corruption] onset affects
    between 5 and 20 pairwise distinct node ids of the cluster, sets the
    status of each to FILESYSTEM_ERROR, emits one ERROR FILESYSTEM record per
    affected node, in order, and appends the affected ids to the registry
    list of the kind. *)
Theorem X7_filesystem_corruption_onset cfg tape s :
  20 ≤ num_nodes cfg →
  returns (choice tape anomaly_kinds s) filesystem_corruption →
  ∃ msgs affected s',
    _create_anomaly cfg tape s = Ok (msgs, affected) s' ∧
    (5 ≤ length affected ≤ 20)%nat ∧ NoDup affected ∧
    Forall (λ n, 0 ≤ n < num_nodes cfg) affected ∧
    (∀ n, n ∈ affected → node_status s' !! n = Some FILESYSTEM_ERROR) ∧
    Forall2 (λ n e, node_id e = n ∧ severity e = ERROR ∧ component e = FILESYSTEM)
            affected msgs ∧
    registry_get (active_anomalies s') filesystem_corruption =
      registry_get (active_anomalies s) filesystem_corruption ++ affected.
Proof.
  intros HN [s1 Hc]. rewrite (create_anomaly_eq _ _ _ _ _ Hc).
  apply choice_frame in Hc as [Hf1 _].
  destruct (wp_inv_ok (_create_anomaly_branch cfg tape filesystem_corruption)
    (λ r s',
       ((5 ≤ length r.2 ≤ 20)%nat ∧ Forall (λ n, 0 ≤ n < num_nodes cfg) r.2 ∧
        onset_post filesystem_corruption s1 r.2 s' ∧
        Forall2 (λ n e, node_id e = n ∧ severity e = ERROR ∧
                        component e = FILESYSTEM) r.2 r.1) ∧
       NoDup r.2) s1)
    as ([msgs affected] & s' & Heq & (Hlen & Hin & Hpost & HR) & Hnd).
  { eapply wp_mono;
      [apply wp_both;
         [apply (onset_filesystem_corruption_spec cfg tape
                   (λ r s',
                      (5 ≤ length r.2 ≤ 20)%nat ∧
                      Forall (λ n, 0 ≤ n < num_nodes cfg) r.2 ∧
                      onset_post filesystem_corruption s1 r.2 s' ∧
                      Forall2 (λ n e, node_id e = n ∧ severity e = ERROR ∧
                                      component e = FILESYSTEM) r.2 r.1)
                   (λ _, False))
         |apply onset_filesystem_corruption_NoDup]| |]; cbv beta.
    - intros; lia.
    - intros affected msgs s' ? ? ? ? _. cbn [fst snd]. done.
    - done.
    - tauto. }
  cbn [fst snd] in *. exists msgs, affected, s'.
  split_and!; [done|lia|lia|done|done| |done|].
  - intros n Hn. by apply (onset_statuses _ _ _ _ n Hpost).
  - destruct Hpost as (_ & Hreg & _).
    rewrite Hreg, registry_get_set, decide_True by done.
    by rewrite (frame_registry _ _ Hf1).
Qed.

Lemma X7_witness :
  ∃ msgs affected s',
    _create_anomaly cfg_two_racks (tape_of [2]) (init cfg_two_racks 0)
      = Ok (msgs, affected) s' ∧
    (5 ≤ length affected ≤ 20)%nat ∧ NoDup affected ∧
    Forall (λ n, 0 ≤ n < num_nodes cfg_two_racks) affected ∧
    (∀ n, n ∈ affected → node_status s' !! n = Some FILESYSTEM_ERROR) ∧
    Forall2 (λ n e, node_id e = n ∧ severity e = ERROR ∧ component e = FILESYSTEM)
            affected msgs ∧
    registry_get (active_anomalies s') filesystem_corruption =
      registry_get (active_anomalies (init cfg_two_racks 0)) filesystem_corruption
      ++ affected.
Proof.
  apply (X7_filesystem_corruption_onset cfg_two_racks (tape_of [2])
           (init cfg_two_racks 0)); [simpl; lia|].
  eexists. reflexivity.
Defined.

(** X8: with [num_nodes >= 32], an [overheating] onset affects a contiguous
    range of 5 to 32 node ids whose start is drawn from [[0, num_nodes - 32]],
    sets the status of each to OVERHEATING, and emits one TEMPERATURE record
    per affected node, in order, none of severity INFO. *)
Theorem X8_overheating_onset cfg tape s :
  32 ≤ num_nodes cfg →
  returns (choice tape anomaly_kinds s) overheating →
  ∃ start len msgs s',
    _create_anomaly cfg tape s = Ok (msgs, seqZ start len) s' ∧
    0 ≤ start ≤ num_nodes cfg - 32 ∧ 5 ≤ len ≤ 32 ∧
    (∀ n, start ≤ n < start + len → node_status s' !! n = Some OVERHEATING) ∧
    Forall2 (λ n e, node_id e = n ∧ severity e ≠ INFO ∧ component e = TEMPERATURE)
            (seqZ start len) msgs.
Proof.
  intros HN [s1 Hc]. rewrite (create_anomaly_eq _ _ _ _ _ Hc).
  edestruct (wp_inv_ok (_create_anomaly_branch cfg tape overheating)
    (λ r s', ∃ start len msgs,
       r = (msgs, seqZ start len) ∧
       0 ≤ start ≤ num_nodes cfg - 32 ∧ 5 ≤ len ≤ 32 ∧
       (∀ n, start ≤ n < start + len → node_status s' !! n = Some OVERHEATING) ∧
       Forall2 (λ n e, node_id e = n ∧ severity e ≠ INFO ∧
                       component e = TEMPERATURE) (seqZ start len) msgs) s1)
    as (r & s' & Heq & start & len & msgs & -> & H).
  { apply onset_overheating_spec; [intros; lia|].
    intros start len msgs s' Hstart Hlen Hpost HR _.
    exists start, len, msgs. split_and!; [done|lia|lia|lia|lia| |done].
    intros n Hn. apply (onset_statuses _ _ _ _ n Hpost), elem_of_seqZ. lia. }
  by exists start, len, msgs, s'.
Qed.

Lemma X8_witness :
  ∃ start len msgs s',
    _create_anomaly cfg_two_racks (tape_of [4]) (init cfg_two_racks 0)
      = Ok (msgs, seqZ start len) s' ∧
    0 ≤ start ≤ num_nodes cfg_two_racks - 32 ∧ 5 ≤ len ≤ 32 ∧
    (∀ n, start ≤ n < start + len → node_status s' !! n = Some OVERHEATING) ∧
    Forall2 (λ n e, node_id e = n ∧ severity e ≠ INFO ∧ component e = TEMPERATURE)
            (seqZ start len) msgs.
Proof.
  apply (X8_overheating_onset cfg_two_racks (tape_of [4]) (init cfg_two_racks 0));
    [simpl; lia|].
  eexists. reflexivity.
Defined.

(** X9: with [num_nodes >= 100], [_create_anomaly] returns whatever kind it
    draws, and the onset is local: the affected ids are a non-empty list of
    cluster nodes, exactly these get the status of the kind while every other
    entry of the status table is as before, the affected ids are appended to
    the registry list of the kind while the other lists are as before, and
    every record emitted is about an affected node. *)
Theorem X9_onset_is_local cfg tape s :
  100 ≤ num_nodes cfg →
  ∃ kind msgs affected s',
    _create_anomaly cfg tape s = Ok (msgs, affected) s' ∧
    affected ≠ [] ∧ Forall (λ n, 0 ≤ n < num_nodes cfg) affected ∧
    (∀ n, node_status s' !! n =
          if decide (n ∈ affected) then Some (degraded kind)
          else node_status s !! n) ∧
    (∀ k, registry_get (active_anomalies s') k =
          if decide (k = kind)
          then registry_get (active_anomalies s) kind ++ affected
          else registry_get (active_anomalies s) k) ∧
    Forall (λ e, node_id e ∈ affected) msgs ∧ (1 ≤ length msgs)%nat.
Proof.
  intros HN.
  edestruct (wp_inv_ok (_create_anomaly cfg tape)
    (λ r s', ∃ kind,
       r.2 ≠ [] ∧ Forall (λ n, 0 ≤ n < num_nodes cfg) r.2 ∧
       onset_post kind s r.2 s' ∧
       Forall (λ e, node_id e ∈ r.2) r.1 ∧ (1 ≤ length r.1)%nat) s)
    as ([msgs affected] & s' & Heq & kind & Hne & Hin & Hpost & Hids & Hlen).
  { apply create_anomaly_spec; [intros; lia|].
    intros kind affected msgs s' ? ? _ ? ? ? _. by exists kind. }
  cbn [fst snd] in *. destruct Hpost as (Hst & Hreg & _).
  exists kind, msgs, affected, s'. split_and!; [done..| | |done|done].
  - intros n. by rewrite Hst, lookup_set_all.
  - intros k. by rewrite Hreg, registry_get_set.
Qed.

Lemma X9_witness :
  ∃ kind msgs affected s',
    _create_anomaly cfg_anomalies (tape_of []) (init cfg_anomalies 0)
      = Ok (msgs, affected) s' ∧
    affected ≠ [] ∧ Forall (λ n, 0 ≤ n < num_nodes cfg_anomalies) affected ∧
    (∀ n, node_status s' !! n =
          if decide (n ∈ affected) then Some (degraded kind)
          else node_status (init cfg_anomalies 0) !! n) ∧
    (∀ k, registry_get (active_anomalies s') k =
          if decide (k = kind)
          then registry_get (active_anomalies (init cfg_anomalies 0)) kind ++ affected
          else registry_get (active_anomalies (init cfg_anomalies 0)) k) ∧
    Forall (λ e, node_id e ∈ affected) msgs ∧ (1 ≤ length msgs)%nat.
Proof.
  apply (X9_onset_is_local cfg_anomalies (tape_of []) (init cfg_anomalies 0)).
  simpl. lia.
Defined.

(** X10: the cluster size each kind of onset needs.  An onset that returns
    had at least 100 nodes for [network_partition], 32 for
    [rack_power_failure] and [overheating], 5 for [filesystem_corruption]
    and 1 for [memory_errors]; an onset that raises had fewer than 100, 32,
    32, 20 and 1 nodes respectively, and has changed neither a status nor
    the registry. *)
Theorem X10_onset_thresholds cfg tape kind s :
  match _create_anomaly_branch cfg tape kind s with
  | Ok _ _ => min_nodes kind ≤ num_nodes cfg
  | Raise _ s' => num_nodes cfg < enough_nodes kind ∧ unchanged s s'
  end.
Proof. apply (onset_threshold cfg tape kind s). Qed.

(** ** Continuation and resolution *)

(** X11: when [_continue_anomaly] draws a kind and the 10% draw fails, it
    returns exactly one record: severity ERROR, the component of the kind, a
    node id taken from the registry list of the kind, stamped with the clock
    it leaves behind; statuses and registry are as before. *)
Theorem X11_continuation_record cfg tape s kind :
  NoDup (active_anomalies s).*1 →
  takes_continuation_branch tape s kind →
  ∃ e s',
    _continue_anomaly cfg tape s = Ok [e] s' ∧
    node_id e ∈ registry_get (active_anomalies s) kind ∧
    severity e = ERROR ∧ component e = recovery_component kind ∧
    unchanged s s' ∧ ms s ≤ timestamp e ∧ timestamp e = ms s'.
Proof. apply continue_anomaly_continuation. Qed.

Lemma X11_witness :
  ∃ e s',
    _continue_anomaly cfg_four_nodes
      (tape_of (replicate 12 0 ++ [4503599627370496])) after_memory_onset
      = Ok [e] s' ∧
    node_id e ∈ registry_get (active_anomalies after_memory_onset) memory_errors ∧
    severity e = ERROR ∧ component e = recovery_component memory_errors ∧
    unchanged after_memory_onset s' ∧
    ms after_memory_onset ≤ timestamp e ∧ timestamp e = ms s'.
Proof.
  apply (X11_continuation_record cfg_four_nodes
           (tape_of (replicate 12 0 ++ [4503599627370496]))
           after_memory_onset memory_errors).
  - apply (bool_decide_unpack _). vm_compute. reflexivity.
  - set (tape := tape_of (replicate 12 0 ++ [4503599627370496])).
    set (s1 := final_state (choice tape [memory_errors] after_memory_onset)).
    exists s1, (4503599627370496 # 9007199254740992),
      (final_state (random tape s1)).
    split_and!; vm_compute; reflexivity.
Defined.

(** X12: on a simulator built by [__init__] and used through
    [generate_logs], a resolution ends the whole episode: after
    [_continue_anomaly] took the resolution branch, every node of the cluster
    is OPERATIONAL and every registry list is empty. *)
Theorem X12_resolution_restores_cluster cfg tape s kind :
  reachable cfg s →
  takes_resolution_branch tape s kind →
  ∃ msgs s',
    _continue_anomaly cfg tape s = Ok msgs s' ∧
    (∀ n, 0 ≤ n < num_nodes cfg → node_status s' !! n = Some OPERATIONAL) ∧
    (∀ k, registry_get (active_anomalies s') k = []).
Proof.
  intros Hr (s1 & r & s2 & Hc & Hrand & Hlt).
  pose proof (reachable_Inv _ _ Hr) as HInv.
  rewrite (continue_anomaly_resolves _ _ _ _ _ _ _ Hc Hrand Hlt).
  apply choice_frame in Hc as [Hf1 Hkind]. apply random_frame in Hrand as Hf2.
  destruct (registry_get_filter _ _ (inv_keys _ _ HInv) Hkind) as [-> Hne].
  assert (frame s s2) as Hf by by eapply frame_trans.
  assert (Inv cfg s2) as HInv2 by by eapply Inv_frame.
  assert (registry_get (active_anomalies s2) kind =
          registry_get (active_anomalies s) kind) as Hreg2
    by by rewrite (frame_registry _ _ Hf).
  rewrite <- Hreg2 in *.
  destruct (wp_inv_ok
    (resolve_branch cfg tape kind (registry_get (active_anomalies s2) kind))
    (λ _ s', resolve_post kind s2 (registry_get (active_anomalies s2) kind) s') s2)
    as (msgs & s' & Heq & Hpost).
  { apply resolve_branch_spec; [done| |auto].
    intros ->. pose proof (Inv_memory_length _ _ HInv2) as Hlen.
    destruct (registry_get (active_anomalies s2) memory_errors) as [|? [|]];
      simpl in *; [done|done|lia]. }
  destruct (Inv_resolve cfg s2 s' kind HInv2 Hne Hpost) as [HInv' Hq].
  destruct (Inv_quiet_operational cfg s' HInv' Hq) as [Hop Hempty].
  exists msgs, s'. split_and!; [done| |done].
  intros n Hn. destruct (proj2 (inv_dom _ _ HInv' n) Hn) as [st Hst].
  by rewrite Hst, (Hop n st Hst).
Qed.

Lemma X12_witness :
  ∃ msgs s',
    _continue_anomaly cfg_four_nodes (tape_of []) after_memory_onset = Ok msgs s' ∧
    (∀ n, 0 ≤ n < num_nodes cfg_four_nodes →
          node_status s' !! n = Some OPERATIONAL) ∧
    (∀ k, registry_get (active_anomalies s') k = []).
Proof.
  apply (X12_resolution_restores_cluster cfg_four_nodes (tape_of [])
           after_memory_onset memory_errors).
  - apply after_memory_onset_reachable.
  - set (s1 := final_state (choice (tape_of []) [memory_errors] after_memory_onset)).
    exists s1, (0 # 9007199254740992), (final_state (random (tape_of []) s1)).
    split_and!; vm_compute; reflexivity.
Defined.

(** X22: the resolution branch of [_continue_anomaly], from any state in
    which a [memory_errors] list has at most one node.  It returns one INFO
    recovery record per node of the kind's registry list, in order, after
    one master record for [rack_power_failure]; exactly the listed nodes
    become OPERATIONAL, every other status is as before; the list of the
    kind becomes empty and the lists of the other kinds are as before. *)
Theorem X22_resolution_is_local cfg tape s kind :
  NoDup (active_anomalies s).*1 →
  takes_resolution_branch tape s kind →
  (kind = memory_errors →
   (length (registry_get (active_anomalies s) kind) ≤ 1)%nat) →
  ∃ msgs s',
    _continue_anomaly cfg tape s = Ok msgs s' ∧
    recovery_shape kind (registry_get (active_anomalies s) kind) msgs ∧
    (∀ n, node_status s' !! n =
          if decide (n ∈ registry_get (active_anomalies s) kind)
          then Some OPERATIONAL else node_status s !! n) ∧
    (∀ k, registry_get (active_anomalies s') k =
          if decide (k = kind) then []
          else registry_get (active_anomalies s) k).
Proof.
  intros Hkeys (s1 & r & s2 & Hc & Hrand & Hlt) Hone.
  rewrite (continue_anomaly_resolves _ _ _ _ _ _ _ Hc Hrand Hlt).
  apply choice_frame in Hc as [Hf1 Hkind]. apply random_frame in Hrand as Hf2.
  destruct (registry_get_filter _ _ Hkeys Hkind) as [-> Hne].
  assert (frame s s2) as Hf by by eapply frame_trans.
  set (affected := registry_get (active_anomalies s) kind) in *.
  destruct (wp_inv_ok (resolve_branch cfg tape kind affected)
    (λ msgs s', resolve_post kind s2 affected s' ∧ recovery_shape kind affected msgs) s2)
    as (msgs & s' & Heq & (Hst & Hreg & _) & Hshape).
  { apply resolve_branch_spec; [done| |auto].
    intros Hmem. specialize (Hone Hmem).
    destruct affected as [|? [|]]; simpl in *; [done|done|lia]. }
  exists msgs, s'. split_and!; [done|done| |].
  - intros n. by rewrite Hst, lookup_set_all, (frame_status _ _ Hf).
  - intros k. by rewrite Hreg, registry_get_set, (frame_registry _ _ Hf).
Qed.

Lemma X22_witness :
  ∃ msgs s',
    _continue_anomaly cfg_four_nodes (tape_of []) after_memory_onset = Ok msgs s' ∧
    recovery_shape memory_errors
      (registry_get (active_anomalies after_memory_onset) memory_errors) msgs ∧
    (∀ n, node_status s' !! n =
          if decide (n ∈ registry_get (active_anomalies after_memory_onset)
                           memory_errors)
          then Some OPERATIONAL else node_status after_memory_onset !! n) ∧
    (∀ k, registry_get (active_anomalies s') k =
          if decide (k = memory_errors) then []
          else registry_get (active_anomalies after_memory_onset) k).
Proof.
  apply (X22_resolution_is_local cfg_four_nodes (tape_of []) after_memory_onset
           memory_errors).
  - apply (bool_decide_unpack _). vm_compute. reflexivity.
  - set (s1 := final_state (choice (tape_of []) [memory_errors] after_memory_onset)).
    exists s1, (0 # 9007199254740992), (final_state (random (tape_of []) s1)).
    split_and!; vm_compute; reflexivity.
  - intros _. vm_compute. lia.
Defined.

(** ** The generation loop *)

(** X13: what one iteration of the loop of [generate_logs] can do to a
    simulator built by [__init__] and used through [generate_logs].  It
    either leaves statuses and registry as they were, or starts one anomaly,
    which happens only when no kind is active, or resolves the active kind
    entirely.  An iteration that raises has changed neither a status nor the
    registry, and the cluster has fewer than 100 nodes. *)
Theorem X13_tick_lifecycle cfg tape s :
  reachable cfg s →
  match tick cfg tape s with
  | Ok _ s' =>
      unchanged s s' ∨
      (quiet s ∧ ∃ kind affected, affected ≠ [] ∧ onset_post kind s affected s') ∨
      (∃ kind, registry_get (active_anomalies s) kind ≠ [] ∧
               resolve_post kind s (registry_get (active_anomalies s) kind) s')
  | Raise _ s' => unchanged s s' ∧ num_nodes cfg < 100
  end.
Proof.
  intros Hr. apply (tick_lifecycle_spec cfg tape s (reachable_Inv _ _ Hr)).
Qed.

Lemma X13_witness :
  match tick cfg_anomalies (tape_of []) (init cfg_anomalies 0) with
  | Ok _ s' =>
      unchanged (init cfg_anomalies 0) s' ∨
      (quiet (init cfg_anomalies 0) ∧
       ∃ kind affected,
         affected ≠ [] ∧ onset_post kind (init cfg_anomalies 0) affected s') ∨
      (∃ kind,
         registry_get (active_anomalies (init cfg_anomalies 0)) kind ≠ [] ∧
         resolve_post kind (init cfg_anomalies 0)
           (registry_get (active_anomalies (init cfg_anomalies 0)) kind) s')
  | Raise _ s' => unchanged (init cfg_anomalies 0) s' ∧ num_nodes cfg_anomalies < 100
  end.
Proof.
  apply (X13_tick_lifecycle cfg_anomalies (tape_of []) (init cfg_anomalies 0)).
  apply reach_init.
Defined.

(** X14: the shape of every state a simulator built by [__init__] reaches
    through [generate_logs]: the keys of the status table are exactly the
    node ids [0 .. num_nodes - 1], every id on a registry list is one of
    them, and the [memory_errors] list holds at most one node. *)
Theorem X14_reachable_state_shape cfg s :
  reachable cfg s →
  (∀ n, is_Some (node_status s !! n) ↔ 0 ≤ n < num_nodes cfg) ∧
  (∀ kind n, n ∈ registry_get (active_anomalies s) kind →
             0 ≤ n < num_nodes cfg) ∧
  (length (registry_get (active_anomalies s) memory_errors) ≤ 1)%nat.
Proof.
  intros HInv%reachable_Inv. split_and!.
  - apply HInv.
  - intros kind n. by apply (Inv_registry_range cfg s kind n).
  - by apply (Inv_memory_length cfg s).
Qed.

Lemma X14_witness :
  (∀ n, is_Some (node_status after_memory_onset !! n) ↔
        0 ≤ n < num_nodes cfg_four_nodes) ∧
  (∀ kind n, n ∈ registry_get (active_anomalies after_memory_onset) kind →
             0 ≤ n < num_nodes cfg_four_nodes) ∧
  (length (registry_get (active_anomalies after_memory_onset) memory_errors) ≤ 1)%nat.
Proof.
  apply (X14_reachable_state_shape cfg_four_nodes after_memory_onset).
  apply after_memory_onset_reachable.
Defined.

(** X15: a simulator built with [num_nodes <= 0] cannot produce a single
    record: every call [generate_logs(count)] with [count >= 1] raises. *)
Theorem X15_empty_cluster_raises cfg tape s count :
  num_nodes cfg ≤ 0 → 1 ≤ count → reachable cfg s →
  result_value (generate_logs cfg tape count s) = None.
Proof.
  intros HN Hcount HInv%reachable_Inv.
  pose proof (generate_logs_spec cfg tape count s HInv) as Hwp. unfold wp in Hwp.
  destruct (generate_logs cfg tape count s) as [logs s'|e s']; [|done].
  destruct Hwp as (_ & Hids & _ & Hlen).
  destruct logs as [|e logs]; [simpl in Hlen; lia|].
  apply Forall_cons in Hids as [? _]. lia.
Qed.

Lemma X15_witness :
  result_value (generate_logs cfg_no_nodes (tape_of []) 1 (init cfg_no_nodes 0))
  = None.
Proof.
  apply (X15_empty_cluster_raises cfg_no_nodes (tape_of []) (init cfg_no_nodes 0) 1).
  - simpl. lia.
  - lia.
  - apply reach_init.
Defined.

Lemma repeat_extend_add {B} (n m : nat) (body : M (list B)) s :
  repeat_extend (n + m) body s =
  (l1 ← repeat_extend n body; l2 ← repeat_extend m body; mret (l1 ++ l2)) s.
Proof.
  revert s. induction n as [|n IH]; intros s; cbn [repeat_extend Nat.add].
  - unfold mbind, M_bind, mret, M_ret. by destruct (repeat_extend m body s).
  - unfold mbind, M_bind, mret, M_ret in *.
    destruct (body s) as [bs s1|e s1]; [|done].
    rewrite IH.
    destruct (repeat_extend n body s1) as [l1 s2|e s2]; [|done].
    destruct (repeat_extend m body s2) as [l2 s3|e s3]; [|done].
    by rewrite app_assoc.
Qed.

(** X16: [generate_logs] composes.  For non-negative counts, one call
    [generate_logs(c1 + c2)] gives the same result, and leaves the same
    state, as [generate_logs(c1)] followed by [generate_logs(c2)] with the
    two lists concatenated; if either call raises, so does the single one,
    with the same exception and in the same state. *)
Theorem X16_generate_logs_splits cfg tape c1 c2 s :
  0 ≤ c1 → 0 ≤ c2 →
  generate_logs cfg tape (c1 + c2) s =
  (logs1 ← generate_logs cfg tape c1;
   logs2 ← generate_logs cfg tape c2;
   mret (logs1 ++ logs2)) s.
Proof.
  intros H1 H2. unfold generate_logs.
  rewrite Z2Nat.inj_add by done. apply repeat_extend_add.
Qed.

Lemma X16_witness :
  generate_logs cfg_no_anomaly (tape_of []) (1 + 2) (init cfg_no_anomaly 0) =
  (logs1 ← generate_logs cfg_no_anomaly (tape_of []) 1;
   logs2 ← generate_logs cfg_no_anomaly (tape_of []) 2;
   mret (logs1 ++ logs2)) (init cfg_no_anomaly 0).
Proof.
  apply (X16_generate_logs_splits cfg_no_anomaly (tape_of []) 1 2
           (init cfg_no_anomaly 0)); lia.
Defined.

(** X17: with [num_nodes >= 100], on a simulator built by [__init__] and
    used through [generate_logs], two consecutive calls both return, the
    records of the first followed by those of the second are in
    non-decreasing timestamp order, and every timestamp lies between the
    clock before the first call and the clock after the second. *)
Theorem X17_consecutive_calls_sorted cfg tape s c1 c2 :
  100 ≤ num_nodes cfg → reachable cfg s →
  ∃ logs1 s1 logs2 s2,
    generate_logs cfg tape c1 s = Ok logs1 s1 ∧
    generate_logs cfg tape c2 s1 = Ok logs2 s2 ∧
    sorted_by_timestamp (logs1 ++ logs2) ∧
    Forall (λ e, ms s ≤ timestamp e ≤ ms s2) (logs1 ++ logs2).
Proof.
  intros HN HInv%reachable_Inv.
  destruct (wp_inv_ok (generate_logs cfg tape c1)
              (run_post cfg (Z.to_nat c1) s) s) as (logs1 & s1 & Heq1 & Hpost1).
  { eapply wp_mono; [by apply generate_logs_spec|done|]. intros s' [_ ?]. lia. }
  destruct Hpost1 as (HInv1 & _ & Hts1 & _).
  destruct (wp_inv_ok (generate_logs cfg tape c2)
              (run_post cfg (Z.to_nat c2) s1) s1) as (logs2 & s2 & Heq2 & Hpost2).
  { eapply wp_mono; [by apply generate_logs_spec|done|]. intros s' [_ ?]. lia. }
  destruct Hpost2 as (_ & _ & Hts2 & _).
  pose proof (stamped_app _ _ _ _ _ Hts1 Hts2) as Hts.
  exists logs1, s1, logs2, s2. split_and!; [done|done| |].
  - intros i j ei ej Hij Hi Hj. by eapply stamped_sorted.
  - apply Forall_forall. intros e He. split.
    + by eapply stamped_lower.
    + by eapply stamped_upper.
Qed.

Lemma X17_witness :
  ∃ logs1 s1 logs2 s2,
    generate_logs cfg_anomalies (tape_of []) 2 (init cfg_anomalies 0) = Ok logs1 s1 ∧
    generate_logs cfg_anomalies (tape_of []) 3 s1 = Ok logs2 s2 ∧
    sorted_by_timestamp (logs1 ++ logs2) ∧
    Forall (λ e, ms (init cfg_anomalies 0) ≤ timestamp e ≤ ms s2) (logs1 ++ logs2).
Proof.
  apply (X17_consecutive_calls_sorted cfg_anomalies (tape_of [])
           (init cfg_anomalies 0) 2 3); [simpl; lia|apply reach_init].
Defined.

(** X18: with [num_nodes >= 10], on a simulator built by [__init__] and used
    through [generate_logs], the normal-log part of the loop always returns
    exactly one record: its node id is a cluster node, its message is one of
    the catalog templates of its component with every placeholder replaced by
    a value, its timestamp is the clock the step leaves behind, and statuses
    and registry are as before. *)
Theorem X18_normal_log_record cfg tape s :
  10 ≤ num_nodes cfg → reachable cfg s →
  ∃ e s' template filled,
    normal_log cfg tape s = Ok [e] s' ∧
    0 ≤ node_id e < num_nodes cfg ∧
    template ∈ message_templates (component e) ∧
    keeps_text template filled ∧ Forall is_lit filled ∧
    message e = render filled ∧
    timestamp e = ms s' ∧ unchanged s s'.
Proof.
  intros HN HInv%reachable_Inv.
  destruct (wp_inv_ok (normal_log cfg tape)
    (λ r s', ∃ e template filled,
       r = [e] ∧ 0 ≤ node_id e < num_nodes cfg ∧
       template ∈ message_templates (component e) ∧
       keeps_text template filled ∧ Forall is_lit filled ∧
       message e = render filled ∧
       timestamp e = ms s' ∧ frame s s') s)
    as (r & s' & Heq & e & template & filled & -> & Hid & Htpl & Hk & Hlit & Hmsg &
        Hts & Hf).
  { eapply wp_mono; [apply normal_log_resolved| |]; cbv beta.
    - intros n Hn. by apply (inv_dom _ _ HInv).
    - done.
    - intros s' [? _]. lia. }
  exists e, s', template, filled. unfold unchanged.
  split_and!; done || lia || apply Hf.
Qed.

Lemma X18_witness :
  ∃ e s' template filled,
    normal_log cfg_no_anomaly (tape_of []) (init cfg_no_anomaly 0) = Ok [e] s' ∧
    0 ≤ node_id e < num_nodes cfg_no_anomaly ∧
    template ∈ message_templates (component e) ∧
    keeps_text template filled ∧ Forall is_lit filled ∧
    message e = render filled ∧
    timestamp e = ms s' ∧ unchanged (init cfg_no_anomaly 0) s'.
Proof.
  apply (X18_normal_log_record cfg_no_anomaly (tape_of []) (init cfg_no_anomaly 0));
    [simpl; lia|apply reach_init].
Defined.

(** X19: [generate_logs(count)] with [count <= 0] returns the empty list at
    once: no draw is made and the state is as before. *)
Theorem X19_generate_logs_nonpositive cfg tape count s :
  count ≤ 0 → generate_logs cfg tape count s = Ok [] s.
Proof.
  intros Hcount. unfold generate_logs.
  by replace (Z.to_nat count) with 0%nat by lia.
Qed.

Lemma X19_witness :
  generate_logs cfg_no_nodes (tape_of []) (-3) (init cfg_no_nodes 0)
  = Ok [] (init cfg_no_nodes 0).
Proof.
  apply (X19_generate_logs_nonpositive cfg_no_nodes (tape_of []) (-3)
           (init cfg_no_nodes 0)).
  lia.
Defined.

(** X20: with [anomaly_probability = 0] nothing ever degrades: in every
    state a simulator built by [__init__] reaches through [generate_logs],
    every node of the cluster is OPERATIONAL and every registry list is
    empty. *)
Theorem X20_no_anomaly_all_operational cfg s :
  (anomaly_probability cfg == 0)%Q → reachable cfg s →
  (∀ n, 0 ≤ n < num_nodes cfg → node_status s !! n = Some OPERATIONAL) ∧
  (∀ k, registry_get (active_anomalies s) k = []).
Proof.
  intros Hp Hr. pose proof (reachable_Inv _ _ Hr) as HInv.
  pose proof (reachable_quiet _ _ Hp Hr) as Hq.
  destruct (Inv_quiet_operational cfg s HInv Hq) as [Hop Hempty].
  split; [|done]. intros n Hn.
  destruct (proj2 (inv_dom _ _ HInv n) Hn) as [st Hst].
  by rewrite Hst, (Hop n st Hst).
Qed.

Lemma X20_witness :
  (∀ n, 0 ≤ n < num_nodes cfg_no_anomaly →
        node_status
          (final_state
             (generate_logs cfg_no_anomaly (tape_of []) 2 (init cfg_no_anomaly 0)))
          !! n = Some OPERATIONAL) ∧
  (∀ k, registry_get
          (active_anomalies
             (final_state
                (generate_logs cfg_no_anomaly (tape_of []) 2 (init cfg_no_anomaly 0))))
          k = []).
Proof.
  apply (X20_no_anomaly_all_operational cfg_no_anomaly
           (final_state
              (generate_logs cfg_no_anomaly (tape_of []) 2 (init cfg_no_anomaly 0)))).
  - reflexivity.
  - apply reach_run, reach_init.
Defined.
